(** * Cohort evaluation engine of [cohort_visualization.py]

    A shallow embedding of the part of [UserCohortSystem] that turns a
    cohort definition into a list of user ids:
    [_users_meeting_condition], [execute_cohort] and [get_cohort_users],
    and of what is built on it: the registry ([create_cohort],
    [initialize_sample_cohorts]), the summaries ([analyze_cohorts], the
    summary rows and the per-user detail of [export_cohort_users]) and
    [_safe_sheet_name].

    Conventions of the embedding.
    - A pandas data frame of events is a list of rows ([Event.t]); the
      seven columns are the keys of the dictionaries built in
      [generate_sample_data].  A missing price ([None], coerced to NaN
      by [pd.to_numeric]) is [None].
    - Instants are integers counting microseconds (the resolution of
      [datetime]) since 2025-01-01 00:00:00.  A [datetime] lies between
      [datetime_min] and [datetime_max] and a [timedelta] has at most
      999999999 days: the cutoff of a condition raises [OverflowError]
      beyond these limits.
    - Prices are integers, as [random.randint] produces them, and
      condition values are rationals: NaN and the infinities are no
      values of the model.  A mean is the quotient of the sum by the
      count, rounded to float64 ([round64]).  Sums and counts are exact
      integers; this is what pandas computes in float64 and in int64 as
      long as the absolute values of the prices of a user sum to less
      than 2^53 ([prices_exact]), and the statements that depend on the
      value of a sum or of a mean assume it.
    - Python sets of user ids are [gset string]; a dictionary key read
      with [d.get(k, default)] is an [option] field, a key read with
      [d[k]] is a plain field.
    - Strings are byte strings (UTF-8): [upper] changes the ASCII letters
      only, and [sorted] compares byte by byte, which is the code point
      order Python uses.
    - An exception is a value of type [exn] carried by [result]; on
      well-typed conditions the engine can raise the [OverflowError] of
      the cutoff and the [KeyError] of a column lookup. *)

From Stdlib Require Import ZArith QArith Qround Qabs Qpower Lqa.
From stdpp Require Import base gmap sets list strings sorting.

(** ** Exceptions and the error monad *)

Inductive exn : Type :=
  | KeyError (key : string)
  | OverflowError.

Inductive result (A : Type) : Type :=
  | Ok (a : A)
  | Raise (e : exn).
Arguments Ok {A} a.
Arguments Raise {A} e.

Definition bind {A B : Type} (m : result A) (k : A → result B) : result B :=
  match m with
  | Ok a => k a
  | Raise e => Raise e
  end.

Notation "x ←! m ; k" := (bind m (λ x, k))
  (at level 20, m at level 100, k at level 200, only parsing).

Definition is_Ok {A : Type} (r : result A) : Prop :=
  match r with
  | Ok _ => True
  | Raise _ => False
  end.

(** ** Data model *)

Module Event.
Record t : Type := mk {
  user_id : string;
  event : string;
  timestamp : Z;
  price : option Z;
  category : string;
  sku_id : string;
  brand : string;
}.
End Event.

Module Condition.
Record t : Type := mk {
  include : option bool;
  action : string;
  operation : string;
  property : option string;
  condition : string;
  value : Q;
  timeframe : option Z;
  logic : option string;
}.
End Condition.

Module Cohort.
Record t : Type := mk {
  id : Z;
  name : string;
  description : string;
  conditions : option (list Condition.t);
  created_date : string;
  created_by : string;
  active : option bool;
}.
End Cohort.

(** The attributes of [UserCohortSystem] the engine reads. *)
Record UserCohortSystem : Type := {
  now : Z;
  user_events : list Event.t;
  cohorts : list Cohort.t;
}.

(** ** Instants *)

Definition microseconds_per_day : Z := 86400000000.

(** [datetime.min] and [datetime.max]: the first instant of year 1 and
    the last instant of year 9999, the days 1 and 3652059 of the
    proleptic Gregorian calendar, in which 2025-01-01 is day 739252. *)
Definition datetime_min : Z := ((1 - 739252) * microseconds_per_day)%Z.

Definition datetime_max : Z :=
  ((3652059 + 1 - 739252) * microseconds_per_day - 1)%Z.

(** [timedelta(days=days)] *)
Definition timedelta (days : Z) : result Z :=
  if decide (-999999999 ≤ days ≤ 999999999)%Z
  then Ok (days * microseconds_per_day)%Z
  else Raise OverflowError.

(** [t - delta] for a [datetime] and a [timedelta] *)
Definition datetime_sub (t delta : Z) : result Z :=
  let r := (t - delta)%Z in
  if decide (datetime_min ≤ r ≤ datetime_max)%Z then Ok r
  else Raise OverflowError.

(** ** float64 *)

(** The nearest integer, the even one of two that are equally near. *)
Definition rne (q : Q) : Z :=
  let f := Qfloor q in
  match Qcompare (q - inject_Z f) (1 # 2) with
  | Lt => f
  | Gt => (f + 1)%Z
  | Eq => if Z.even f then f else (f + 1)%Z
  end.

Definition pow2 (e : Z) : Q := Qpower 2 e.

(** The exponent of [x]: the largest [e] with [2^e <= x], for [0 < x]. *)
Definition ilog2 (x : Q) : Z :=
  let c := (Z.log2 (Qnum x) - Z.log2 (Zpos (Qden x)))%Z in
  if Qle_bool (pow2 c) x
  then (if Qle_bool (pow2 (c + 1)) x then c + 1 else c)%Z
  else (c - 1)%Z.

(** Rounding to the nearest float64, ties to even: 53 significant bits,
    and a least exponent of -1022 (below it the numbers are subnormal).
    The numbers beyond the largest float64, which round to infinity, are
    out of the reach of the quotients of integers that the statements of
    this file round. *)
Definition exponent64 (a : Q) : Z := Z.max (ilog2 a) (-1022).

Definition round64_abs (a : Q) : Q :=
  (inject_Z (rne (a * pow2 (52 - exponent64 a))) * pow2 (exponent64 a - 52))%Q.

Definition round64 (x : Q) : Q :=
  match Qcompare x 0 with
  | Eq => 0%Q
  | Lt => (- round64_abs (Qabs x))%Q
  | Gt => round64_abs (Qabs x)
  end.

(** ** Data-frame operations *)

(** A cell of a data frame; [NaN] is the missing value. *)
Inductive cell : Type :=
  | StrCell (s : string)
  | NumCell (z : Z)
  | NaN.

Global Instance cell_eq_dec : EqDecision cell.
Proof. solve_decision. Defined.

Definition price_cell (p : option Z) : cell :=
  match p with
  | Some z => NumCell z
  | None => NaN
  end.

(** [df[name]]: the column called [name], when the frame has one. *)
Definition column (name : string) : option (Event.t → cell) :=
  if decide (name = "user_id") then Some (λ e, StrCell (Event.user_id e))
  else if decide (name = "event") then Some (λ e, StrCell (Event.event e))
  else if decide (name = "timestamp") then Some (λ e, NumCell (Event.timestamp e))
  else if decide (name = "price") then Some (λ e, price_cell (Event.price e))
  else if decide (name = "category") then Some (λ e, StrCell (Event.category e))
  else if decide (name = "sku_id") then Some (λ e, StrCell (Event.sku_id e))
  else if decide (name = "brand") then Some (λ e, StrCell (Event.brand e))
  else None.

(** A series indexed by user id. *)
Definition Series (V : Type) : Type := list (string * V).

(** The rows of user [u], in frame order. *)
Definition group_of (u : string) (rows : list Event.t) : list Event.t :=
  filter (λ e, Event.user_id e = u) rows.

(** [df.groupby("user_id")]: the group keys in ascending order, each with
    its rows. *)
Definition groupby_user_id (rows : list Event.t) : Series (list Event.t) :=
  (λ u, (u, group_of u rows))
    <$> merge_sort String.le (remove_dups (Event.user_id <$> rows)).

Definition series_map {V W : Type} (f : V → W) (s : Series V) : Series W :=
  (λ p, (p.1, f p.2)) <$> s.

Definition Zsum (l : list Z) : Z := foldr Z.add 0%Z l.

(** [.size()]: the number of rows of each group. *)
Definition size_agg (g : list Event.t) : Q :=
  inject_Z (Z.of_nat (length g)).

(** [["price"].sum()]: NaN cells are skipped; an all-NaN group sums to 0. *)
Definition sum_agg (g : list Event.t) : option Q :=
  Some (inject_Z (Zsum (omap Event.price g))).

(** The quotient of the sum by the count. *)
Definition exact_mean (ps : list Z) : Q :=
  (inject_Z (Zsum ps) / inject_Z (Z.of_nat (length ps)))%Q.

(** The mean of a float64 series: the division rounds. *)
Definition float64_mean (ps : list Z) : Q := round64 (exact_mean ps).

(** [["price"].mean()]: NaN cells are skipped; an all-NaN group has mean NaN. *)
Definition mean_agg (g : list Event.t) : option Q :=
  match omap Event.price g with
  | [] => None
  | ps => Some (float64_mean ps)
  end.

(** [[col].nunique()]: the number of distinct cells that are not NaN. *)
Definition nunique_agg (col : Event.t → cell) (g : list Event.t) : Q :=
  inject_Z (Z.of_nat (length (remove_dups (filter (λ c, c ≠ NaN) (col <$> g))))).

(** [.fillna(x)] *)
Definition fillna (x : Q) (s : Series (option Q)) : Series Q :=
  series_map (default x) s.

(** [set(grp[mask].index)] for a boolean mask computed from the values. *)
Definition index_where (mask : Q → bool) (grp : Series Q) : gset string :=
  list_to_set (fst <$> filter (λ p, mask p.2 = true) grp).

(** The comparator chain that ends each branch of
    [_users_meeting_condition]; the source repeats it five times. *)
Definition select_users (cond : string) (grp : Series Q) (value : Q) : gset string :=
  if decide (cond = ">=") then index_where (λ x, Qle_bool value x) grp
  else if decide (cond = ">") then index_where (λ x, negb (Qle_bool x value)) grp
  else if decide (cond = "<=") then index_where (λ x, Qle_bool x value) grp
  else if decide (cond = "<") then index_where (λ x, negb (Qle_bool value x)) grp
  else if decide (cond = "==") then index_where (λ x, Qeq_bool x value) grp
  else ∅.

(** ** [_users_meeting_condition] *)

(** The cutoff and the filter, lines 368 to 374. *)
Definition filtered_events (self : UserCohortSystem) (condition : Condition.t)
    : result (list Event.t) :=
  let action := Condition.action condition in
  let timeframe := default 30%Z (Condition.timeframe condition) in
  delta ←! timedelta timeframe;
  cutoff ←! datetime_sub (now self) delta;
  Ok (filter (λ e, Event.event e = action ∧ (cutoff ≤ Event.timestamp e)%Z)
             (user_events self)).

(** [prop if prop else "sku_id"] *)
Definition target_prop_of (prop : string) : string :=
  if decide (prop = "") then "sku_id" else prop.

Definition _users_meeting_condition (self : UserCohortSystem)
    (condition : Condition.t) : result (gset string) :=
  let operation := Condition.operation condition in
  let prop := default "" (Condition.property condition) in
  let cmp := Condition.condition condition in
  let value := Condition.value condition in
  filtered ←! filtered_events self condition;
  match filtered with
  | [] => Ok ∅
  | _ =>
    if decide (operation = "count") then
      let grp := series_map size_agg (groupby_user_id filtered) in
      Ok (select_users cmp grp value)
    else if decide (operation = "sum" ∧ prop = "price") then
      let grp := fillna 0 (series_map sum_agg (groupby_user_id filtered)) in
      Ok (select_users cmp grp value)
    else if decide (operation = "avg" ∧ prop = "price") then
      let grp := fillna 0 (series_map mean_agg (groupby_user_id filtered)) in
      Ok (select_users cmp grp value)
    else if decide (operation = "distinct_count") then
      let target_prop := target_prop_of prop in
      match column target_prop with
      | None => Raise (KeyError target_prop)
      | Some col =>
        let grp := series_map (nunique_agg col) (groupby_user_id filtered) in
        Ok (select_users cmp grp value)
      end
    else
      let grp := series_map size_agg (groupby_user_id filtered) in
      Ok (select_users cmp grp value)
  end.

(** ** [execute_cohort] *)

(** [str.upper()] on the ASCII letters. *)
Definition upper_ascii (a : Ascii.ascii) : Ascii.ascii :=
  let n := Ascii.N_of_ascii a in
  if ((97 <=? n) && (n <=? 122))%N then Ascii.ascii_of_N (n - 32) else a.

Fixpoint upper (s : string) : string :=
  match s with
  | EmptyString => EmptyString
  | String a s' => String (upper_ascii a) (upper s')
  end.

(** [cond.get("logic") or "AND"]: [None] and the empty string are falsy. *)
Definition logic_or_AND (l : option string) : string :=
  match l with
  | None => "AND"
  | Some s => if decide (s = "") then "AND" else s
  end.

Definition universe_of (self : UserCohortSystem) : gset string :=
  list_to_set (Event.user_id <$> user_events self).

(** The include/exclude step of the loop body. *)
Definition cond_users_of (universe met_users : gset string)
    (cond : Condition.t) : gset string :=
  if default true (Condition.include cond) then met_users
  else universe ∖ met_users.

(** One iteration of the [for] loop; [current_set] is [None] before the
    first iteration. *)
Definition loop_body (self : UserCohortSystem) (universe : gset string)
    (current_set : option (gset string)) (cond : Condition.t)
    : result (option (gset string)) :=
  met_users ←! _users_meeting_condition self cond;
  let cond_users := cond_users_of universe met_users cond in
  match current_set with
  | None => Ok (Some cond_users)
  | Some cur =>
    let logic := upper (logic_or_AND (Condition.logic cond)) in
    if decide (logic = "AND") then Ok (Some (cur ∩ cond_users))
    else if decide (logic = "OR") then Ok (Some (cur ∪ cond_users))
    else Ok (Some (cur ∩ cond_users))
  end.

Fixpoint for_loop (self : UserCohortSystem) (universe : gset string)
    (current_set : option (gset string)) (conditions : list Condition.t)
    : result (option (gset string)) :=
  match conditions with
  | [] => Ok current_set
  | cond :: rest =>
    current_set' ←! loop_body self universe current_set cond;
    for_loop self universe current_set' rest
  end.

(** [sorted] on strings: a stable merge sort by code points. *)
Definition sorted (l : list string) : list string := merge_sort String.le l.

Section engine.
(** [list(s)] for a Python set [s] enumerates it in hash order, which
    changes from one interpreter run to the next. *)
Variable list_of_set : gset string → list string.

Definition execute_cohort (self : UserCohortSystem) (cohort : Cohort.t)
    : result (list string) :=
  let universe := universe_of self in
  match default [] (Cohort.conditions cohort) with
  | [] => Ok []
  | conditions =>
    current_set ←! for_loop self universe None conditions;
    match current_set with
    | None => Ok []
    | Some s => Ok (sorted (list_of_set s))
    end
  end.

Definition get_cohort_users (self : UserCohortSystem) (cohort_id : Z)
    : result (list string) :=
  let cohort := head (filter (λ c, Cohort.id c = cohort_id) (cohorts self)) in
  match cohort with
  | None => Ok []
  | Some c =>
    if negb (default false (Cohort.active c)) then Ok []
    else execute_cohort self c
  end.
End engine.

(** A set enumeration is any listing of the elements without repetition. *)
Definition enumerates (list_of_set : gset string → list string) : Prop :=
  ∀ s, list_of_set s ≡ₚ elements s.

(** ** Vocabulary of the specification *)

(** A condition "identical except for" one field. *)
Definition with_operation (op : string) (c : Condition.t) : Condition.t :=
  Condition.mk (Condition.include c) (Condition.action c) op
    (Condition.property c) (Condition.condition c) (Condition.value c)
    (Condition.timeframe c) (Condition.logic c).

Definition with_value (v : Q) (c : Condition.t) : Condition.t :=
  Condition.mk (Condition.include c) (Condition.action c)
    (Condition.operation c) (Condition.property c) (Condition.condition c) v
    (Condition.timeframe c) (Condition.logic c).

Definition with_logic (l : option string) (c : Condition.t) : Condition.t :=
  Condition.mk (Condition.include c) (Condition.action c)
    (Condition.operation c) (Condition.property c) (Condition.condition c)
    (Condition.value c) (Condition.timeframe c) l.

Definition with_conditions (cs : list Condition.t) (co : Cohort.t) : Cohort.t :=
  Cohort.mk (Cohort.id co) (Cohort.name co) (Cohort.description co) (Some cs)
    (Cohort.created_date co) (Cohort.created_by co) (Cohort.active co).

(** The closed enumerations of the data model. *)
Definition known_operations : list string :=
  ["count"; "sum"; "avg"; "distinct_count"].

Definition known_comparators : list string :=
  [">="; ">"; "<="; "<"; "=="].

(** What it means for an aggregate [x] to meet the threshold [v] under the
    comparator [cmp]; no comparator outside the enumeration is ever met. *)
Definition satisfies (cmp : string) (x v : Q) : Prop :=
  (cmp = ">=" ∧ (v <= x)%Q) ∨ (cmp = ">" ∧ (v < x)%Q) ∨
  (cmp = "<=" ∧ (x <= v)%Q) ∨ (cmp = "<" ∧ (x < v)%Q) ∨
  (cmp = "==" ∧ (x == v)%Q).

(** The user has at least one row among [rows]. *)
Definition has_rows (u : string) (rows : list Event.t) : Prop :=
  ∃ e, e ∈ rows ∧ Event.user_id e = u.

(** The time window of a condition can be computed: [timedelta] accepts
    the number of days, and the cutoff is a [datetime]. *)
Definition window_in_range (self : UserCohortSystem) (c : Condition.t) : Prop :=
  let timeframe := default 30%Z (Condition.timeframe c) in
  (-999999999 ≤ timeframe ≤ 999999999)%Z
  ∧ (datetime_min ≤ now self - timeframe * microseconds_per_day
     ≤ datetime_max)%Z.

Global Instance window_in_range_dec self c : Decision (window_in_range self c).
Proof. unfold window_in_range. apply _. Defined.

(** The events of the action of a condition that are not older than its
    time window. *)
Definition window_events (self : UserCohortSystem) (c : Condition.t)
    : list Event.t :=
  let timeframe := default 30%Z (Condition.timeframe c) in
  filter (λ e, Event.event e = Condition.action c
               ∧ (now self - timeframe * microseconds_per_day
                  ≤ Event.timestamp e)%Z)
         (user_events self).

(** The conditions that are evaluated to a user set: the time window can
    be computed, and a distinct count with an event in its window counts
    a column of the event frame. *)
Definition evaluates (self : UserCohortSystem) (c : Condition.t) : Prop :=
  window_in_range self c
  ∧ (window_events self c = []
     ∨ Condition.operation c ≠ "distinct_count"
     ∨ is_Some (column (target_prop_of (default "" (Condition.property c))))).

(** The float64 mean of the prices that are present, 0 when there is
    none. *)
Definition mean_of_present (ps : list Z) : Q :=
  match ps with
  | [] => 0
  | _ => float64_mean ps
  end.

(** The same mean without the rounding. *)
Definition exact_mean_of_present (ps : list Z) : Q :=
  match ps with
  | [] => 0
  | _ => exact_mean ps
  end.

(** The [avg] policy in the words of the specification: a missing price
    counts as 0, in the numerator and in the denominator. *)
Definition mean_zero_filled_agg (g : list Event.t) : Q :=
  float64_mean ((λ e, default 0%Z (Event.price e)) <$> g).

Definition avg_matches_zero_filled (condition : Condition.t)
    (filtered : list Event.t) : gset string :=
  select_users (Condition.condition condition)
    (series_map mean_zero_filled_agg (groupby_user_id filtered))
    (Condition.value condition).

(** The prices of every user among [rows] are few and small: their
    absolute values sum to less than 2^53.  A column of such prices is
    held exactly in float64 and in int64, and the sum of the prices of a
    user over any part of [rows] is the same in float64, in int64 and in
    the integers. *)
Definition prices_exact (rows : list Event.t) : Prop :=
  ∀ u, let ps := omap Event.price (group_of u rows) in
       (Zsum (Z.abs <$> ps) < 2 ^ 53)%Z ∧ (Z.of_nat (length ps) < 2 ^ 53)%Z.

(** The value is an integer. *)
Definition integer_value (v : Q) : Prop := ∃ z : Z, (v == inject_Z z)%Q.

(** No user has both priced and unpriced rows among [rows]. *)
Definition price_uniform (rows : list Event.t) : Prop :=
  ∀ u, Forall (λ e, is_Some (Event.price e)) (group_of u rows)
       ∨ Forall (λ e, Event.price e = None) (group_of u rows).

(** The combinator read from a condition joins by union. *)
Definition joins_by_union (c : Condition.t) : Prop :=
  upper (logic_or_AND (Condition.logic c)) = "OR".

Global Instance joins_by_union_dec c : Decision (joins_by_union c).
Proof. unfold joins_by_union. apply _. Defined.

(** The aggregation chosen by the [if]/[elif] chain on [operation] and
    [prop], followed by [fillna(0)] where the source applies it. *)
Definition aggregate_of (operation prop : string)
    : result (list Event.t → Q) :=
  if decide (operation = "count") then Ok size_agg
  else if decide (operation = "sum" ∧ prop = "price") then
    Ok (default 0%Q ∘ sum_agg)
  else if decide (operation = "avg" ∧ prop = "price") then
    Ok (default 0%Q ∘ mean_agg)
  else if decide (operation = "distinct_count") then
    match column (target_prop_of prop) with
    | None => Raise (KeyError (target_prop_of prop))
    | Some col => Ok (nunique_agg col)
    end
  else Ok size_agg.

(** ** Concrete snapshots and conditions *)

Definition sample_event (u a : string) (t : Z) (p : option Z) : Event.t :=
  Event.mk u a (t * microseconds_per_day) p "electronics" "SKU1000" "Apple".

(** The scenario of the specification: A adds 2000 and 1500 to the cart,
    B adds 500, nobody pays; [now] is day 3. *)
Definition cart_system : UserCohortSystem := {|
  now := 3 * microseconds_per_day;
  user_events := [ sample_event "A" "cart_added" 1 (Some 2000%Z);
                   sample_event "A" "cart_added" 2 (Some 1500%Z);
                   sample_event "B" "cart_added" 1 (Some 500%Z) ];
  cohorts := [];
|}.

Definition cart_sum_ge_3000 : Condition.t :=
  Condition.mk (Some true) "cart_added" "sum" (Some "price") ">=" 3000
    (Some 7%Z) (Some "AND").

Definition no_payment : Condition.t :=
  Condition.mk (Some false) "payment_successful" "count" (Some "events") ">=" 1
    (Some 7%Z) (Some "AND").

(** A snapshot in which one user has a priced and an unpriced cart row. *)
Definition mixed_price_system : UserCohortSystem := {|
  now := 3 * microseconds_per_day;
  user_events := [ sample_event "A" "cart_added" 1 (Some 100%Z);
                   sample_event "A" "cart_added" 2 None ];
  cohorts := [];
|}.

Definition cart_avg_ge_100 : Condition.t :=
  Condition.mk (Some true) "cart_added" "avg" (Some "price") ">=" 100
    (Some 7%Z) (Some "AND").

(** A distinct count over "events", the property the sample cohorts give
    to their count conditions, with a comparator outside the enumeration. *)
Definition cart_distinct_events_ne : Condition.t :=
  Condition.mk (Some true) "cart_added" "distinct_count" (Some "events") "!=" 1
    (Some 7%Z) (Some "AND").

Definition cart_count_ne : Condition.t :=
  Condition.mk (Some true) "cart_added" "count" (Some "events") "!=" 1
    (Some 7%Z) (Some "AND").

Definition cart_distinct_events_ge : Condition.t :=
  Condition.mk (Some true) "cart_added" "distinct_count" (Some "events") ">=" 1
    (Some 7%Z) (Some "AND").

(** A snapshot with one shopper and one visitor, and two conditions that
    select one of them each; the second is joined with a lower-case "or". *)
Definition visit_system : UserCohortSystem := {|
  now := 3 * microseconds_per_day;
  user_events := [ sample_event "A" "cart_added" 1 (Some 700%Z);
                   sample_event "B" "user_login" 2 None ];
  cohorts := [];
|}.

Definition cart_any : Condition.t :=
  Condition.mk (Some true) "cart_added" "count" (Some "events") ">=" 1
    (Some 7%Z) (Some "AND").

Definition login_any_or : Condition.t :=
  Condition.mk (Some true) "user_login" "count" (Some "events") ">=" 1
    (Some 7%Z) (Some "or").

Definition sample_cohort (cohort_id : Z) (cs : list Condition.t)
    (active : option bool) : Cohort.t :=
  Cohort.mk cohort_id "sample" "a cohort to run" (Some cs) "2025-01-01"
    "System" active.

(** The cart snapshot with a registry of an active and an inactive cohort. *)
Definition cart_registry : UserCohortSystem := {|
  now := now cart_system;
  user_events := user_events cart_system;
  cohorts := [ sample_cohort 1 [cart_sum_ge_3000; no_payment] (Some true);
               sample_cohort 2 [cart_any] (Some false) ];
|}.

(** [c] is the cohort that a lookup of [cohort_id] finds: the first one
    of the registry with that id (the only one when ids are unique). *)
Definition registered (self : UserCohortSystem) (cohort_id : Z)
    (c : Cohort.t) : Prop :=
  ∃ before after,
    cohorts self = before ++ c :: after
    ∧ Cohort.id c = cohort_id
    ∧ Forall (λ c', Cohort.id c' ≠ cohort_id) before.

Definition sum_of_events_ge_2 : Condition.t :=
  Condition.mk (Some true) "cart_added" "sum" (Some "events") ">=" 2
    (Some 7%Z) (Some "AND").

(** An operation outside the enumeration, over a window of a million
    days, which reaches back beyond year 1. *)
Definition cart_median_long : Condition.t :=
  Condition.mk (Some true) "cart_added" "median" (Some "events") ">=" 1
    (Some 1000000%Z) (Some "AND").

(** The three cart rows of the scenario, which a window of 7 days keeps. *)
Definition cart_rows : list Event.t := user_events cart_system.

Definition mixed_price_rows : list Event.t := user_events mixed_price_system.

(** ** The registry: [create_cohort] and [initialize_sample_cohorts] *)

Definition with_timeframe (t : option Z) (c : Condition.t) : Condition.t :=
  Condition.mk (Condition.include c) (Condition.action c)
    (Condition.operation c) (Condition.property c) (Condition.condition c)
    (Condition.value c) t (Condition.logic c).

Definition with_condition (cmp : string) (c : Condition.t) : Condition.t :=
  Condition.mk (Condition.include c) (Condition.action c)
    (Condition.operation c) (Condition.property c) cmp
    (Condition.value c) (Condition.timeframe c) (Condition.logic c).

Definition with_property (p : option string) (c : Condition.t) : Condition.t :=
  Condition.mk (Condition.include c) (Condition.action c)
    (Condition.operation c) p (Condition.condition c)
    (Condition.value c) (Condition.timeframe c) (Condition.logic c).

(** The system after an assignment to [self.cohorts]. *)
Definition set_cohorts (cs : list Cohort.t) (self : UserCohortSystem)
    : UserCohortSystem :=
  {| now := now self; user_events := user_events self; cohorts := cs |}.

Section registry.
(** [self.now.strftime("%Y-%m-%d")]: the formatting of an instant is the
    library's; the registry only stores the string. *)
Variable strftime : Z → string.

(** [create_cohort] returns the new cohort and appends it to
    [self.cohorts]. *)
Definition create_cohort (self : UserCohortSystem) (name description : string)
    (conditions : list Condition.t) : Cohort.t * UserCohortSystem :=
  let cohort :=
    Cohort.mk (Z.of_nat (length (cohorts self)) + 1) name description
      (Some conditions) (strftime (now self)) "User" (Some true) in
  (cohort, set_cohorts (cohorts self ++ [cohort]) self).

Definition system_cohort (cohort_id : Z) (name description : string)
    (conditions : list Condition.t) (self : UserCohortSystem) : Cohort.t :=
  Cohort.mk cohort_id name description (Some conditions)
    (strftime (now self)) "System" (Some true).

Definition sample_condition (include : bool) (action operation property : string)
    (value : Q) (timeframe : Z) (logic : option string) : Condition.t :=
  Condition.mk (Some include) action operation (Some property) ">=" value
    (Some timeframe) logic.

Definition high_value_abandoned_cart : list Condition.t :=
  [ sample_condition true "cart_added" "sum" "price" 3000 7 (Some "AND");
    sample_condition false "payment_successful" "count" "events" 1 7 None ].

Definition checkout_abandoners : list Condition.t :=
  [ sample_condition true "checkout_clicked" "count" "events" 1 7 (Some "AND");
    sample_condition false "payment_successful" "count" "events" 1 7 None ].

Definition browser_non_purchasers : list Condition.t :=
  [ sample_condition true "PDP_view" "count" "events" 5 7 (Some "AND");
    sample_condition false "cart_added" "count" "events" 1 7 None ].

Definition platinum : list Condition.t :=
  [ sample_condition true "payment_successful" "sum" "price" 15000 365 (Some "AND");
    sample_condition true "payment_successful" "count" "events" 5 365 (Some "AND");
    sample_condition true "cart_added" "avg" "price" 2000 365 (Some "AND");
    sample_condition true "payment_successful" "count" "events" 1 90 None ].

Definition gold : list Condition.t :=
  [ sample_condition true "payment_successful" "sum" "price" 7000 365 (Some "AND");
    sample_condition true "payment_successful" "count" "events" 3 365 (Some "AND");
    sample_condition true "cart_added" "avg" "price" 1000 365 (Some "AND");
    sample_condition true "payment_successful" "count" "events" 1 180 None ].

Definition silver : list Condition.t :=
  [ sample_condition true "payment_successful" "sum" "price" 2000 365 (Some "AND");
    sample_condition true "payment_successful" "count" "events" 1 365 (Some "AND");
    sample_condition true "cart_added" "avg" "price" 500 365 (Some "AND");
    sample_condition true "payment_successful" "count" "events" 1 365 None ].

(** [initialize_sample_cohorts] replaces the registry by the three sample
    cohorts followed by the three premium tiers. *)
Definition initialize_sample_cohorts (self : UserCohortSystem)
    : UserCohortSystem :=
  let sample_cohorts :=
    [ system_cohort 1 "High Value Abandoned Cart"
        "Users who added expensive items but didn't complete purchase"
        high_value_abandoned_cart self;
      system_cohort 2 "Checkout Abandoners"
        "Users who started checkout but didn't complete payment"
        checkout_abandoners self;
      system_cohort 3 "Browser Non-Purchasers"
        "Users who browse extensively but don't add to cart"
        browser_non_purchasers self ] in
  let premium_cohorts :=
    [ system_cohort 4 "Platinum"
        "Top-tier premium customers: high LTV, frequent buyers, and recent purchasers"
        platinum self;
      system_cohort 5 "Gold"
        "Mid-tier premium customers: good spenders and somewhat frequent buyers"
        gold self;
      system_cohort 6 "Silver"
        "Entry premium: some spend and at least one recent purchase"
        silver self ] in
  set_cohorts (sample_cohorts ++ premium_cohorts) self.
End registry.

(** The ids of the registry are 1, 2, ..., n in order, as
    [initialize_sample_cohorts] leaves them. *)
Definition ids_sequential (self : UserCohortSystem) : Prop :=
  Cohort.id <$> cohorts self
  = (λ i, Z.of_nat i + 1)%Z <$> seq 0 (length (cohorts self)).

(** ** [analyze_cohorts] and the summary of [export_cohort_users] *)

(** A row of the summary frame.  [description] and [created_date] are
    read with [cohort.get]; a cohort of the model always has them. *)
Module SummaryRow.
Record t : Type := mk {
  cohort_id : Z;
  cohort_name : string;
  description : string;
  user_count : nat;
  created_date : string;
  conditions_count : nat;
}.
End SummaryRow.

Definition summary_row (cohort : Cohort.t) (users : list string)
    : SummaryRow.t :=
  SummaryRow.mk (Cohort.id cohort) (Cohort.name cohort)
    (Cohort.description cohort) (length users) (Cohort.created_date cohort)
    (length (default [] (Cohort.conditions cohort))).

Section reporting.
Variable list_of_set : gset string → list string.

(** The loop of [analyze_cohorts]; [results] is the list built so far. *)
Fixpoint analyze_loop (self : UserCohortSystem) (results : list SummaryRow.t)
    (cs : list Cohort.t) : result (list SummaryRow.t) :=
  match cs with
  | [] => Ok results
  | cohort :: rest =>
    if default false (Cohort.active cohort) then
      users ←! execute_cohort list_of_set self cohort;
      analyze_loop self (results ++ [summary_row cohort users]) rest
    else analyze_loop self results rest
  end.

Definition analyze_cohorts (self : UserCohortSystem)
    : result (list SummaryRow.t) :=
  analyze_loop self [] (cohorts self).

(** The loop of [export_cohort_users] as far as [summary_rows] goes: the
    users of a cohort are looked up by its id.  The same six values are
    stored under the keys "Cohort ID", "Cohort Name", "Description",
    "Total Users", "Created Date" and "Conditions Count".  The detail of
    the users, computed between the lookup and the row, is that of
    [user_info] below. *)
Fixpoint export_summary_loop (self : UserCohortSystem)
    (summary_rows : list SummaryRow.t) (cs : list Cohort.t)
    : result (list SummaryRow.t) :=
  match cs with
  | [] => Ok summary_rows
  | cohort :: rest =>
    if negb (default false (Cohort.active cohort)) then
      export_summary_loop self summary_rows rest
    else
      users ←! get_cohort_users list_of_set self (Cohort.id cohort);
      export_summary_loop self (summary_rows ++ [summary_row cohort users]) rest
  end.

Definition export_summary_rows (self : UserCohortSystem)
    : result (list SummaryRow.t) :=
  export_summary_loop self [] (cohorts self).
End reporting.

(** ** The per-user detail of [export_cohort_users] *)

(** The values of [user_info] that are computed from the events of the
    user; [last_activity] is the instant before it is formatted.  The
    profile columns and the rounded [conversion_rate] are left out.  The
    detail is that of a snapshot whose [now] is at least 30 days after
    [datetime.min], where the window of the recent events can be
    computed. *)
Module UserInfo.
Record t : Type := mk {
  user_id : string;
  total_events : nat;
  recent_events : nat;
  last_activity : option Z;
  total_cart_value : Z;
  total_purchase_value : Z;
  cart_additions : nat;
  purchases : nat;
  page_views : nat;
  checkouts : nat;
  logins : nat;
  wishlist_additions : nat;
  unique_categories_viewed : nat;
  unique_brands_interacted : nat;
  unique_products_viewed : nat;
}.
End UserInfo.

(** [series.max()] on instants; an empty series has none. *)
Definition max_timestamp (rows : list Event.t) : option Z :=
  match rows with
  | [] => None
  | e :: rest => Some (foldr Z.max (Event.timestamp e) (Event.timestamp <$> rest))
  end.

Definition rows_with_event (a : string) (rows : list Event.t) : list Event.t :=
  filter (λ e, Event.event e = a) rows.

(** [[col].sum(skipna=True)] on the price column. *)
Definition price_sum (rows : list Event.t) : Z := Zsum (omap Event.price rows).

(** [[col].nunique()] on a column of strings. *)
Definition nunique_str (col : Event.t → string) (rows : list Event.t) : nat :=
  length (remove_dups (col <$> rows)).

Definition user_info (self : UserCohortSystem) (user_id : string) : UserInfo.t :=
  let user_events := filter (λ e, Event.user_id e = user_id) (user_events self) in
  let recent_events :=
    filter (λ e, (now self - 30 * microseconds_per_day ≤ Event.timestamp e)%Z)
           user_events in
  let last_activity :=
    match user_events with
    | [] => None
    | _ => max_timestamp user_events
    end in
  UserInfo.mk user_id
    (length user_events) (length recent_events) last_activity
    (price_sum (rows_with_event "cart_added" user_events))
    (price_sum (rows_with_event "payment_successful" user_events))
    (length (rows_with_event "cart_added" user_events))
    (length (rows_with_event "payment_successful" user_events))
    (length (rows_with_event "PDP_view" user_events))
    (length (rows_with_event "checkout_clicked" user_events))
    (length (rows_with_event "user_login" user_events))
    (length (rows_with_event "wishlist_added" user_events))
    (nunique_str Event.category user_events)
    (nunique_str Event.brand user_events)
    (nunique_str Event.sku_id user_events).

(** ** [_safe_sheet_name] *)

(** Slicing counts code points, so a sheet name is the list of its code
    points. *)
Abbreviation codepoints := (list N).

(** The characters \ / * ? : [ ] *)
Definition invalid_chars : list N := [92; 47; 42; 63; 58; 91; 93]%N.

(** The character _ *)
Definition underscore : N := 95%N.

Definition _safe_sheet_name (name : codepoints) : codepoints :=
  let safe := (λ c, if decide (c ∈ invalid_chars) then underscore else c) <$> name in
  take 31 safe.

(** ** More vocabulary *)

(** The set a condition contributes to the loop: the raw matches, or
    their complement when the condition excludes. *)
Definition cond_set (self : UserCohortSystem) (c : Condition.t)
    : result (gset string) :=
  met_users ←! _users_meeting_condition self c;
  Ok (cond_users_of (universe_of self) met_users c).

(** [now] is a [datetime] at least [days] days after [datetime.min]. *)
Definition now_after (days : Z) (self : UserCohortSystem) : Prop :=
  (datetime_min + days * microseconds_per_day ≤ now self ≤ datetime_max)%Z.

(** The sum of the prices that are present. *)
Definition sum_of_present (g : list Event.t) : Q :=
  inject_Z (Zsum (omap Event.price g)).

(** Snapshots and registries to run the engine on. *)
Definition fixed_date (t : Z) : string := "2025-01-01".

Definition shadowed_registry : UserCohortSystem :=
  set_cohorts [ sample_cohort 2 [cart_any] (Some false);
                sample_cohort 2 [cart_any] (Some true) ] cart_system.


(** A sequence of [create_cohort] calls, each given by the name, the
    description and the conditions of the cohort to create. *)
Definition create_cohorts (strftime : Z → string)
    (specs : list (string * string * list Condition.t))
    (self : UserCohortSystem) : UserCohortSystem :=
  foldl (λ s spec, (create_cohort strftime s spec.1.1 spec.1.2 spec.2).2)
        self specs.

(** [row] is the summary row of [co] for the users that [run] returns. *)
Definition reported_by (run : Cohort.t → result (list string))
    (co : Cohort.t) (row : SummaryRow.t) : Prop :=
  ∃ users, run co = Ok users ∧ row = summary_row co users.


(** Every user of the set of [c1] is a user of the set of [c2]. *)
Definition stronger (self : UserCohortSystem) (c1 c2 : Condition.t) : Prop :=
  ∀ cu1 u, cond_set self c1 = Ok cu1 → u ∈ cu1 →
           ∃ cu2, cond_set self c2 = Ok cu2 ∧ u ∈ cu2.
(** ** Series and selection lemmas *)

Section series.
Context {V : Type}.
Implicit Types (f : list Event.t → V) (rows : list Event.t) (u : string).

Lemma has_rows_elem_of u rows :
  has_rows u rows ↔ u ∈ Event.user_id <$> rows.
Proof.
  unfold has_rows. rewrite list_elem_of_fmap.
  split; intros (e & ? & ?); exists e; done.
Qed.

Lemma elem_of_groupby_user_id u g rows :
  (u, g) ∈ groupby_user_id rows ↔ has_rows u rows ∧ g = group_of u rows.
Proof.
  unfold groupby_user_id. rewrite list_elem_of_fmap, has_rows_elem_of.
  split.
  - intros (u' & [= -> ->] & Hin).
    rewrite merge_sort_Permutation, elem_of_remove_dups in Hin. done.
  - intros [Hin ->]. exists u. split; [done|].
    by rewrite merge_sort_Permutation, elem_of_remove_dups.
Qed.

Lemma elem_of_series_map_groupby f u x rows :
  (u, x) ∈ series_map f (groupby_user_id rows)
  ↔ has_rows u rows ∧ x = f (group_of u rows).
Proof.
  unfold series_map. rewrite list_elem_of_fmap. split.
  - intros ([u' g] & [= -> ->] & Hin). simpl.
    apply elem_of_groupby_user_id in Hin as [? ->]. done.
  - intros [Hin ->]. exists (u, group_of u rows). split; [done|].
    by apply elem_of_groupby_user_id.
Qed.
End series.

Lemma series_map_compose {A B C} (f : A → B) (g : B → C) (s : Series A) :
  series_map g (series_map f s) = series_map (g ∘ f) s.
Proof.
  unfold series_map. rewrite <- list_fmap_compose. by apply list_fmap_ext.
Qed.

Lemma elem_of_index_where mask (grp : Series Q) u :
  u ∈ index_where mask grp ↔ ∃ x, (u, x) ∈ grp ∧ mask x = true.
Proof.
  unfold index_where.
  rewrite elem_of_list_to_set, list_elem_of_fmap. split.
  - intros ([u' x] & -> & Hin). apply list_elem_of_filter in Hin as [? ?].
    exists x. done.
  - intros (x & Hin & Hm). exists (u, x). split; [done|].
    apply list_elem_of_filter. done.
Qed.

Lemma Qlt_bool_iff (x y : Q) : negb (Qle_bool y x) = true ↔ (x < y)%Q.
Proof.
  rewrite negb_true_iff, <- not_true_iff_false, Qle_bool_iff. split.
  - apply Qnot_le_lt.
  - apply Qlt_not_le.
Qed.

Lemma elem_of_index_where_iff mask (P : Q → Prop) (grp : Series Q) u :
  (∀ x, mask x = true ↔ P x) →
  u ∈ index_where mask grp ↔ ∃ x, (u, x) ∈ grp ∧ P x.
Proof.
  intros HP. rewrite elem_of_index_where.
  split; intros (x & Hin & Hx); exists x; (split; [done|]); by apply HP.
Qed.

Local Ltac by_comparator :=
  unfold satisfies; intuition (try discriminate; try congruence).

Lemma satisfies_ge x v : Qle_bool v x = true ↔ satisfies ">=" x v.
Proof. rewrite Qle_bool_iff. by_comparator. Qed.

Lemma satisfies_gt x v : negb (Qle_bool x v) = true ↔ satisfies ">" x v.
Proof. rewrite Qlt_bool_iff. by_comparator. Qed.

Lemma satisfies_le x v : Qle_bool x v = true ↔ satisfies "<=" x v.
Proof. rewrite Qle_bool_iff. by_comparator. Qed.

Lemma satisfies_lt x v : negb (Qle_bool v x) = true ↔ satisfies "<" x v.
Proof. rewrite Qlt_bool_iff. by_comparator. Qed.

Lemma satisfies_eq x v : Qeq_bool x v = true ↔ satisfies "==" x v.
Proof. rewrite Qeq_bool_iff. by_comparator. Qed.

Lemma satisfies_known cmp x v : satisfies cmp x v → cmp ∈ known_comparators.
Proof.
  unfold satisfies, known_comparators.
  intros [[-> _]|[[-> _]|[[-> _]|[[-> _]|[-> _]]]]]; compute_done.
Qed.

Lemma elem_of_select_users cmp (grp : Series Q) v u :
  u ∈ select_users cmp grp v ↔ ∃ x, (u, x) ∈ grp ∧ satisfies cmp x v.
Proof.
  unfold select_users. repeat case_decide; subst.
  - apply elem_of_index_where_iff. intros x. apply satisfies_ge.
  - apply elem_of_index_where_iff. intros x. apply satisfies_gt.
  - apply elem_of_index_where_iff. intros x. apply satisfies_le.
  - apply elem_of_index_where_iff. intros x. apply satisfies_lt.
  - apply elem_of_index_where_iff. intros x. apply satisfies_eq.
  - rewrite elem_of_empty. split; [done|].
    intros (x & _ & [[? _]|[[? _]|[[? _]|[[? _]|[? _]]]]]); done.
Qed.

Lemma elem_of_select_groupby cmp (f : list Event.t → Q) rows v u :
  u ∈ select_users cmp (series_map f (groupby_user_id rows)) v
  ↔ has_rows u rows ∧ satisfies cmp (f (group_of u rows)) v.
Proof.
  rewrite elem_of_select_users. split.
  - intros (x & Hin & Hs). apply elem_of_series_map_groupby in Hin as [? ->]. done.
  - intros [Hr Hs]. eexists. split; [|exact Hs].
    by apply elem_of_series_map_groupby.
Qed.


(** ** float64 rounding *)

Lemma pow2_pos e : (0 < pow2 e)%Q.
Proof. apply Qpower_0_lt. reflexivity. Qed.

Lemma pow2_plus a b : (pow2 (a + b) == pow2 a * pow2 b)%Q.
Proof. apply Qpower_plus. discriminate. Qed.

Lemma pow2_le a b : (a ≤ b)%Z → (pow2 a <= pow2 b)%Q.
Proof. intros H. apply Qpower_le_compat_l; [done|]. discriminate. Qed.

Lemma pow2_lt a b : (a < b)%Z → (pow2 a < pow2 b)%Q.
Proof. intros H. apply Qpower_lt_compat_l; [done|]. reflexivity. Qed.

Lemma pow2_Z n : (0 ≤ n)%Z → (pow2 n == inject_Z (2 ^ n))%Q.
Proof. intros H. unfold pow2. by rewrite Zpower_Qpower. Qed.

Lemma pow2_inv a : (pow2 a * pow2 (- a) == 1)%Q.
Proof. rewrite <- pow2_plus, Z.add_opp_diag_r. reflexivity. Qed.

Lemma rne_error q : (Qabs (inject_Z (rne q) - q) <= 1 # 2)%Q.
Proof.
  unfold rne.
  pose proof (Qfloor_le q) as Hl. pose proof (Qlt_floor q) as Hu.
  rewrite inject_Z_plus in Hu. change (inject_Z 1) with 1%Q in Hu.
  apply Qabs_Qle_condition.
  destruct (Qcompare (q - inject_Z (Qfloor q)) (1 # 2)) eqn:Hc.
  - apply Qeq_alt in Hc.
    destruct (Z.even (Qfloor q)); rewrite ?inject_Z_plus;
      change (inject_Z 1) with 1%Q; split; lra.
  - apply Qlt_alt in Hc. split; lra.
  - apply Qgt_alt in Hc. rewrite inject_Z_plus.
    change (inject_Z 1) with 1%Q. split; lra.
Qed.

Lemma rne_integer q k : (q == inject_Z k)%Q → rne q = k.
Proof.
  intros E. unfold rne.
  assert (Qfloor q = k) as ->.
  { rewrite (Qfloor_comp _ _ E). apply Qfloor_Z. }
  assert ((q - inject_Z k ?= 1 # 2)%Q = Lt) as ->; [|done].
  apply (proj1 (Qlt_alt _ _)). lra.
Qed.

Lemma Zlog2_pow2_le p : (2 ^ Z.log2 (Zpos p) ≤ Zpos p < 2 ^ (Z.log2 (Zpos p) + 1))%Z.
Proof.
  pose proof (Z.log2_spec (Zpos p) eq_refl) as H.
  by rewrite <- Z.add_1_r in H.
Qed.

Lemma ilog2_le x : (0 < x)%Q → (pow2 (ilog2 x) <= x)%Q.
Proof.
  intros Hx. unfold ilog2.
  destruct (Qle_bool (pow2 _) x) eqn:H1.
  { destruct (Qle_bool (pow2 (_ + 1)) x) eqn:H2; by apply Qle_bool_iff. }
  clear H1. destruct x as [n d]. unfold Qlt in Hx. simpl in Hx.
  destruct n as [|n|n]; try lia. cbn [Qnum Qden].
  pose proof (Zlog2_pow2_le n) as [Hn _].
  pose proof (Zlog2_pow2_le d) as [_ Hd].
  pose proof (Z.log2_nonneg (Zpos n)) as Hn0.
  pose proof (Z.log2_nonneg (Zpos d)) as Hd0.
  set (a := Z.log2 (Zpos n)) in *. set (b := Z.log2 (Zpos d)) in *.
  assert (pow2 (a - b - 1) * pow2 (b + 1) == pow2 a)%Q as E.
  { rewrite <- pow2_plus.
    assert ((a - b - 1 + (b + 1))%Z = a) as -> by lia. reflexivity. }
  assert (0 < pow2 (b + 1))%Q as Hb by apply pow2_pos.
  assert (pow2 a <= inject_Z (Zpos n))%Q as Ha.
  { rewrite pow2_Z by done. by rewrite <- Zle_Qle. }
  assert (inject_Z (Zpos d) <= pow2 (b + 1))%Q as Hd'.
  { rewrite pow2_Z by lia. rewrite <- Zle_Qle. lia. }
  assert (Zpos n # d == inject_Z (Zpos n) / inject_Z (Zpos d))%Q as ->.
  { apply Qmake_Qdiv. }
  apply Qle_shift_div_l; [reflexivity|].
  assert (0 <= pow2 (a - b - 1))%Q by (apply Qlt_le_weak, pow2_pos).
  nra.
Qed.

Lemma round64_abs_error a :
  (Qabs (round64_abs a - a) <= pow2 (exponent64 a - 53))%Q.
Proof.
  unfold round64_abs. set (e := exponent64 a).
  pose proof (rne_error (a * pow2 (52 - e))) as Hm.
  set (m := inject_Z (rne (a * pow2 (52 - e)))) in *.
  assert (pow2 (52 - e) * pow2 (e - 52) == 1)%Q as Hst.
  { rewrite <- pow2_plus.
    assert ((52 - e + (e - 52))%Z = 0%Z) as -> by lia. reflexivity. }
  assert (pow2 (e - 53) == pow2 (e - 52) * (1 # 2))%Q as ->.
  { assert ((e - 53)%Z = (e - 52 + -1)%Z) as -> by lia.
    rewrite pow2_plus. reflexivity. }
  pose proof (pow2_pos (e - 52)) as Ht.
  set (s := pow2 (52 - e)) in *. set (t := pow2 (e - 52)) in *.
  apply Qabs_Qle_condition in Hm as [Hm1 Hm2].
  assert ((m - a * s) * t == m * t - a)%Q as Hmt.
  { assert ((m - a * s) * t == m * t - a * (s * t))%Q as -> by ring.
    rewrite Hst. ring. }
  assert (- (1 # 2) * t <= (m - a * s) * t)%Q as H1.
  { apply Qmult_le_compat_r; lra. }
  assert ((m - a * s) * t <= (1 # 2) * t)%Q as H2.
  { apply Qmult_le_compat_r; lra. }
  rewrite Hmt in H1, H2.
  apply Qabs_Qle_condition. split; lra.
Qed.

Lemma round64_abs_error_cases a :
  (0 < a)%Q →
  (Qabs (round64_abs a - a) <= a * pow2 (-53))%Q
  ∨ (Qabs (round64_abs a - a) <= pow2 (-1075))%Q.
Proof.
  intros Ha. pose proof (round64_abs_error a) as H.
  unfold exponent64 in H.
  destruct (Z.max_spec (ilog2 a) (-1022)) as [[_ E]|[_ E]]; rewrite E in H.
  - right. exact H.
  - left. eapply Qle_trans; [exact H|].
    assert ((ilog2 a - 53)%Z = (ilog2 a + -53)%Z) as -> by lia.
    rewrite pow2_plus. apply Qmult_le_compat_r; [by apply ilog2_le|].
    apply Qlt_le_weak, pow2_pos.
Qed.

Lemma round64_zero x : (x == 0)%Q → round64 x = 0%Q.
Proof. intros E. unfold round64. by rewrite (proj1 (Qeq_alt _ _) E). Qed.

Lemma round64_error x :
  (Qabs (round64 x - x) <= Qabs x * pow2 (-53))%Q
  ∨ (Qabs (round64 x - x) <= pow2 (-1075))%Q.
Proof.
  unfold round64. destruct (Qcompare x 0) eqn:Hc.
  - apply Qeq_alt in Hc. left. rewrite Hc. discriminate.
  - apply Qlt_alt in Hc.
    assert (Qabs x == - x)%Q as Hx by (apply Qabs_neg; lra).
    assert (0 < Qabs x)%Q as Hpos by lra.
    assert (- round64_abs (Qabs x) - x == - (round64_abs (Qabs x) - Qabs x))%Q
      as -> by lra.
    rewrite Qabs_opp. by apply round64_abs_error_cases.
  - apply Qgt_alt in Hc.
    assert (Qabs x == x)%Q as Hx by (apply Qabs_pos; lra).
    assert (0 < Qabs x)%Q as Hpos by lra.
    assert (round64_abs (Qabs x) - x == round64_abs (Qabs x) - Qabs x)%Q
      as -> by lra.
    by apply round64_abs_error_cases.
Qed.

Lemma round64_abs_integer a k :
  (a == inject_Z k)%Q → (0 < k < 2 ^ 53)%Z →
  (round64_abs a == inject_Z k)%Q.
Proof.
  intros E [Hk0 Hk]. unfold round64_abs. set (e := exponent64 a).
  assert (0 < a)%Q as Ha.
  { rewrite E. change 0%Q with (inject_Z 0). by rewrite <- Zlt_Qlt. }
  assert (e ≤ 52)%Z as He.
  { unfold e, exponent64.
    assert (ilog2 a < 53)%Z; [|lia].
    apply (Qpower_lt_compat_l_inv 2); [|reflexivity].
    eapply Qle_lt_trans; [by apply ilog2_le|].
    rewrite E. fold (pow2 53). rewrite pow2_Z by lia. by rewrite <- Zlt_Qlt. }
  assert (a * pow2 (52 - e) == inject_Z (k * 2 ^ (52 - e)))%Q as Hm.
  { rewrite inject_Z_mult, <- pow2_Z by lia. by rewrite E. }
  rewrite (rne_integer _ _ Hm), inject_Z_mult, <- pow2_Z by lia.
  rewrite <- Qmult_assoc, <- pow2_plus.
  assert ((52 - e + (e - 52))%Z = 0%Z) as -> by lia.
  change (pow2 0) with 1%Q. apply Qmult_1_r.
Qed.

Lemma round64_integer x k :
  (x == inject_Z k)%Q → (Z.abs k < 2 ^ 53)%Z → (round64 x == inject_Z k)%Q.
Proof.
  intros E Hk. unfold round64. destruct (Qcompare x 0) eqn:Hc.
  - apply Qeq_alt in Hc. by rewrite <- E, Hc.
  - apply Qlt_alt in Hc.
    assert (k < 0)%Z as Hk0.
    { rewrite Zlt_Qlt. change (inject_Z 0) with 0%Q. by rewrite <- E. }
    assert (Qabs x == inject_Z (- k))%Q as Hx.
    { rewrite inject_Z_opp, <- E. apply Qabs_neg. lra. }
    rewrite (round64_abs_integer _ _ Hx) by lia.
    rewrite inject_Z_opp. lra.
  - apply Qgt_alt in Hc.
    assert (0 < k)%Z as Hk0.
    { rewrite Zlt_Qlt. change (inject_Z 0) with 0%Q. by rewrite <- E. }
    assert (Qabs x == inject_Z k)%Q as Hx.
    { rewrite <- E. apply Qabs_pos. lra. }
    apply round64_abs_integer; [done|lia].
Qed.

Lemma Qabs_inject_Z k : (Qabs (inject_Z k) == inject_Z (Z.abs k))%Q.
Proof. unfold Qabs, inject_Z. reflexivity. Qed.

(** The rounding of a quotient of two integers below 2^53 moves it by
    less than the inverse of the divisor. *)
Lemma round64_quotient_error (S n : Z) :
  (0 < n < 2 ^ 53)%Z → (Z.abs S < 2 ^ 53)%Z →
  let x := (inject_Z S / inject_Z n)%Q in
  (Qabs (round64 x - x) * inject_Z n < 1)%Q.
Proof.
  intros [Hn0 Hn] HS x.
  assert (0 < inject_Z n)%Q as HN.
  { change 0%Q with (inject_Z 0). by rewrite <- Zlt_Qlt. }
  assert (inject_Z n < pow2 53)%Q as HN53.
  { rewrite pow2_Z by lia. by rewrite <- Zlt_Qlt. }
  assert (Qabs x * inject_Z n == inject_Z (Z.abs S))%Q as HxN.
  { rewrite <- Qabs_inject_Z.
    rewrite <- (Qabs_pos (inject_Z n)) at 1 by lra.
    rewrite <- Qabs_Qmult. apply Qabs_wd. unfold x. field. lra. }
  assert (inject_Z (Z.abs S) < pow2 53)%Q as HS53.
  { rewrite pow2_Z by lia. by rewrite <- Zlt_Qlt. }
  assert (pow2 53 * pow2 (-53) == 1)%Q as H53 by apply pow2_inv.
  pose proof (pow2_pos (-53)) as Hp53.
  pose proof (Qabs_nonneg (round64 x - x)) as Hd0.
  destruct (round64_error x) as [H|H].
  - assert (Qabs (round64 x - x) * inject_Z n
            <= Qabs x * pow2 (-53) * inject_Z n)%Q as H1.
    { apply Qmult_le_compat_r; lra. }
    assert (inject_Z (Z.abs S) * pow2 (-53) < pow2 53 * pow2 (-53))%Q as H2.
    { apply Qmult_lt_compat_r; lra. }
    assert (Qabs x * pow2 (-53) * inject_Z n
            == Qabs x * inject_Z n * pow2 (-53))%Q as E by ring.
    rewrite E, HxN in H1. lra.
  - assert (pow2 (-1075) * pow2 53 <= 1)%Q as H1.
    { rewrite <- pow2_plus. change 1%Q with (pow2 0). by apply pow2_le. }
    pose proof (pow2_pos (-1075)) as Hp.
    assert (Qabs (round64 x - x) * inject_Z n
            <= pow2 (-1075) * inject_Z n)%Q as H2.
    { apply Qmult_le_compat_r; lra. }
    assert (pow2 (-1075) * inject_Z n < pow2 (-1075) * pow2 53)%Q as H3.
    { rewrite !(Qmult_comm (pow2 (-1075))). apply Qmult_lt_compat_r; lra. }
    lra.
Qed.

Lemma round64_quotient_le (S n z : Z) :
  (0 < n < 2 ^ 53)%Z → (Z.abs S < 2 ^ 53)%Z →
  let x := (inject_Z S / inject_Z n)%Q in
  ((inject_Z z <= round64 x)%Q ↔ (inject_Z z <= x)%Q)
  ∧ ((round64 x <= inject_Z z)%Q ↔ (x <= inject_Z z)%Q).
Proof.
  intros Hn HS x.
  pose proof (round64_quotient_error S n Hn HS) as Hd. cbv zeta in Hd. fold x in Hd.
  destruct Hn as [Hn0 Hn].
  assert (0 < inject_Z n)%Q as HN.
  { change 0%Q with (inject_Z 0). by rewrite <- Zlt_Qlt. }
  assert (x * inject_Z n == inject_Z S)%Q as HxN.
  { unfold x. field. lra. }
  set (N := inject_Z n) in *. set (y := round64 x) in *.
  assert ((y - x) * N <= Qabs (y - x) * N)%Q as Hd1.
  { apply Qmult_le_compat_r; [apply Qle_Qabs|lra]. }
  assert (- ((y - x) * N) <= Qabs (y - x) * N)%Q as Hd2.
  { assert (- ((y - x) * N) == (- (y - x)) * N)%Q as -> by ring.
    apply Qmult_le_compat_r; [|lra].
    rewrite <- Qabs_opp. apply Qle_Qabs. }
  assert ((y - x) * N == y * N - inject_Z S)%Q as E.
  { rewrite <- HxN. ring. }
  rewrite E in Hd1, Hd2.
  assert (∀ a b : Q, (a <= b)%Q ↔ (a * N <= b * N)%Q) as Hmul.
  { intros a b. symmetry. by apply Qmult_le_r. }
  assert ((z * n)%Z = S → (y == inject_Z z)%Q) as Hexact.
  { intros Hz. apply round64_integer.
    - unfold x, N. rewrite <- Hz, inject_Z_mult. field. fold N. lra.
    - assert (Z.abs z * n = Z.abs S)%Z by (rewrite <- Hz; lia). nia. }
  assert (∀ a b : Z, (a ≤ b)%Z ↔ (inject_Z a <= inject_Z b)%Q) as HZ.
  { intros a b. by rewrite Zle_Qle. }
  assert (inject_Z z * N == inject_Z (z * n))%Q as HzN.
  { unfold N. by rewrite inject_Z_mult. }
  split.
  - rewrite (Hmul (inject_Z z) y), (Hmul (inject_Z z) x), HxN, HzN, <- HZ.
    destruct (Z.lt_trichotomy (z * n) S) as [Hlt|[Heq|Hgt]].
    + split; [lia|]. intros _.
      assert (inject_Z (z * n) + 1 <= inject_Z S)%Q.
      { change 1%Q with (inject_Z 1). rewrite <- inject_Z_plus, <- Zle_Qle. lia. }
      lra.
    + split; [lia|]. intros _. rewrite (Hexact Heq), HzN. apply Qle_refl.
    + split; [|lia]. intros H.
      assert (inject_Z S + 1 <= inject_Z (z * n))%Q.
      { change 1%Q with (inject_Z 1). rewrite <- inject_Z_plus, <- Zle_Qle. lia. }
      lra.
  - rewrite (Hmul y (inject_Z z)), (Hmul x (inject_Z z)), HxN, HzN, <- HZ.
    destruct (Z.lt_trichotomy (z * n) S) as [Hlt|[Heq|Hgt]].
    + split; [|lia]. intros H.
      assert (inject_Z (z * n) + 1 <= inject_Z S)%Q.
      { change 1%Q with (inject_Z 1). rewrite <- inject_Z_plus, <- Zle_Qle. lia. }
      lra.
    + split; [lia|]. intros _. rewrite (Hexact Heq), HzN. apply Qle_refl.
    + split; [lia|]. intros _.
      assert (inject_Z S + 1 <= inject_Z (z * n))%Q.
      { change 1%Q with (inject_Z 1). rewrite <- inject_Z_plus, <- Zle_Qle. lia. }
      lra.
Qed.

Lemma Zsum_abs_le ps : (Z.abs (Zsum ps) ≤ Zsum (Z.abs <$> ps))%Z.
Proof.
  induction ps as [|p ps IH]; [done|].
  rewrite fmap_cons. cbn [Zsum foldr]. fold (Zsum ps).
  fold (Zsum (Z.abs <$> ps)). lia.
Qed.

Lemma satisfies_Qeq cmp (x y v : Q) :
  (x == y)%Q → satisfies cmp x v ↔ satisfies cmp y v.
Proof. intros E. unfold satisfies. rewrite E. done. Qed.

Lemma satisfies_Qeq_value cmp (x v w : Q) :
  (v == w)%Q → satisfies cmp x v ↔ satisfies cmp x w.
Proof. intros E. unfold satisfies. rewrite E. done. Qed.

Lemma satisfies_by_order cmp (x y v : Q) :
  ((v <= x)%Q ↔ (v <= y)%Q) → ((x <= v)%Q ↔ (y <= v)%Q) →
  satisfies cmp x v ↔ satisfies cmp y v.
Proof.
  intros H1 H2.
  assert ((v < x)%Q ↔ (v < y)%Q) as H3.
  { split; intros H; apply Qnot_le_lt; intros H';
      apply H2 in H'; by apply Qle_not_lt in H'. }
  assert ((x < v)%Q ↔ (y < v)%Q) as H4.
  { split; intros H; apply Qnot_le_lt; intros H';
      apply H1 in H'; by apply Qle_not_lt in H'. }
  assert ((x == v)%Q ↔ (y == v)%Q) as H5.
  { split; intros H; apply Qle_antisym;
      try (apply H1; rewrite H; apply Qle_refl);
      try (apply H2; rewrite H; apply Qle_refl). }
  unfold satisfies. rewrite H1, H2, H3, H4, H5. done.
Qed.

(** On integer thresholds the float64 mean of few small prices compares
    as the exact mean does. *)
Lemma float64_mean_satisfies cmp ps v :
  ps ≠ [] →
  (Zsum (Z.abs <$> ps) < 2 ^ 53)%Z →
  (Z.of_nat (length ps) < 2 ^ 53)%Z →
  integer_value v →
  satisfies cmp (float64_mean ps) v ↔ satisfies cmp (exact_mean ps) v.
Proof.
  intros Hne Hsum Hlen [z Hz].
  rewrite !(satisfies_Qeq_value cmp _ v (inject_Z z) Hz).
  assert (0 < Z.of_nat (length ps) < 2 ^ 53)%Z as Hn.
  { split; [|done]. destruct ps; [done|]. simpl. lia. }
  pose proof (Zsum_abs_le ps) as Habs.
  destruct (round64_quotient_le (Zsum ps) (Z.of_nat (length ps)) z Hn)
    as [H1 H2]; [lia|].
  apply satisfies_by_order; [exact H1|exact H2].
Qed.

Lemma Zsum_abs_nonneg ps : (0 ≤ Zsum (Z.abs <$> ps))%Z.
Proof.
  induction ps as [|p ps IH]; [done|].
  rewrite fmap_cons. cbn [Zsum foldr]. fold (Zsum (Z.abs <$> ps)). lia.
Qed.

Lemma prices_filter_le (P : Event.t → Prop) `{!∀ e, Decision (P e)} g :
  (Zsum (Z.abs <$> omap Event.price (filter P g))
   ≤ Zsum (Z.abs <$> omap Event.price g))%Z
  ∧ length (omap Event.price (filter P g)) ≤ length (omap Event.price g).
Proof.
  induction g as [|e g [IH1 IH2]]; [done|].
  pose proof (Zsum_abs_nonneg (omap Event.price g)) as Hnn.
  rewrite filter_cons. destruct (decide (P e)) as [HP|HP].
  - cbn [omap list_omap]. destruct (Event.price e) as [z|]; [|done].
    rewrite !fmap_cons. cbn [Zsum foldr length].
    fold (Zsum (Z.abs <$> omap Event.price (filter P g))).
    fold (Zsum (Z.abs <$> omap Event.price g)). lia.
  - cbn [omap list_omap]. destruct (Event.price e) as [z|]; [|done].
    rewrite fmap_cons. cbn [Zsum foldr length].
    fold (Zsum (Z.abs <$> omap Event.price g)). lia.
Qed.

Lemma prices_exact_filter (P : Event.t → Prop) `{!∀ e, Decision (P e)} rows :
  prices_exact rows → prices_exact (filter P rows).
Proof.
  intros Hex u. destruct (Hex u) as [H1 H2]. unfold group_of.
  assert (filter (λ e, Event.user_id e = u) (filter P rows)
          = filter P (filter (λ e, Event.user_id e = u) rows)) as ->.
  { rewrite !list_filter_filter. apply list_filter_iff. intros e. tauto. }
  destruct (prices_filter_le P (filter (λ e, Event.user_id e = u) rows))
    as [H3 H4].
  unfold group_of in H1, H2. cbv zeta. split; lia.
Qed.

(** ** The time window *)

Lemma filtered_events_spec self c :
  filtered_events self c =
  if decide (window_in_range self c) then Ok (window_events self c)
  else Raise OverflowError.
Proof.
  unfold filtered_events, window_in_range, window_events, timedelta,
    datetime_sub.
  set (t := default 30%Z (Condition.timeframe c)).
  destruct (decide (-999999999 ≤ t ≤ 999999999)%Z) as [Ht|Ht]; cbn [bind].
  - destruct (decide (datetime_min ≤ now self - t * microseconds_per_day
                      ≤ datetime_max)%Z) as [Hc|Hc]; cbn [bind].
    + by rewrite decide_True.
    + rewrite decide_False; [done|]. intros [_ ?]. done.
  - rewrite decide_False; [done|]. intros [? _]. done.
Qed.

Lemma filtered_events_Ok self c rows :
  filtered_events self c = Ok rows ↔
  window_in_range self c ∧ rows = window_events self c.
Proof.
  rewrite filtered_events_spec. case_decide.
  - split; [by intros [= <-]|by intros [_ ->]].
  - split; [done|]. intros [? _]. done.
Qed.

Lemma filtered_events_Raise self c e :
  filtered_events self c = Raise e ↔
  ¬ window_in_range self c ∧ e = OverflowError.
Proof.
  rewrite filtered_events_spec. case_decide.
  - split; [done|]. intros [? _]. done.
  - split; [by intros [= <-]|by intros [_ ->]].
Qed.

Lemma filtered_events_in_range self c :
  window_in_range self c → filtered_events self c = Ok (window_events self c).
Proof. intros H. by apply filtered_events_Ok. Qed.

Lemma filtered_events_subseteq self c rows e :
  filtered_events self c = Ok rows → e ∈ rows → e ∈ user_events self.
Proof.
  intros [_ ->]%filtered_events_Ok. unfold window_events.
  rewrite list_elem_of_filter. tauto.
Qed.

Lemma prices_exact_filtered self c rows :
  filtered_events self c = Ok rows →
  prices_exact (user_events self) → prices_exact rows.
Proof.
  intros [_ ->]%filtered_events_Ok. apply prices_exact_filter.
Qed.

(** ** The shape of [_users_meeting_condition] *)

Lemma users_meeting_condition_unfold self c :
  _users_meeting_condition self c =
  (rows ←! filtered_events self c;
   match rows with
   | [] => Ok ∅
   | _ :: _ =>
     f ←! aggregate_of (Condition.operation c)
                       (default "" (Condition.property c));
     Ok (select_users (Condition.condition c)
           (series_map f (groupby_user_id rows))
           (Condition.value c))
   end).
Proof.
  unfold _users_meeting_condition, aggregate_of, fillna.
  destruct (filtered_events self c) as [[|e rows]|]; [done| |done].
  cbn [bind].
  repeat case_decide; cbn [bind]; rewrite ?series_map_compose; try done.
  destruct (column _); done.
Qed.

Lemma users_meeting_condition_no_rows self c :
  filtered_events self c = Ok [] → _users_meeting_condition self c = Ok ∅.
Proof. intros H. rewrite users_meeting_condition_unfold, H. done. Qed.

Lemma users_meeting_condition_overflow self c e :
  filtered_events self c = Raise e → _users_meeting_condition self c = Raise e.
Proof. intros H. rewrite users_meeting_condition_unfold, H. done. Qed.

Lemma no_rows_empty (P : string → Prop) (s : gset string) :
  s = ∅ → ∀ u, u ∈ s ↔ has_rows u [] ∧ P u.
Proof.
  intros -> u. rewrite elem_of_empty. split; [done|].
  intros [(e & He & _) _]. by apply elem_of_nil in He.
Qed.

Lemma users_meeting_condition_spec self c rows f :
  filtered_events self c = Ok rows →
  aggregate_of (Condition.operation c) (default "" (Condition.property c)) = Ok f →
  ∃ s, _users_meeting_condition self c = Ok s
    ∧ ∀ u, u ∈ s ↔
        has_rows u rows
        ∧ satisfies (Condition.condition c) (f (group_of u rows))
            (Condition.value c).
Proof.
  intros Hrows Hf. rewrite users_meeting_condition_unfold, Hrows. cbn [bind].
  destruct rows as [|e rows].
  - exists ∅. split; [done|]. by apply no_rows_empty.
  - rewrite Hf. cbn [bind]. eexists. split; [done|].
    intros u. apply elem_of_select_groupby.
Qed.

Lemma users_meeting_condition_Ok_inv self c s :
  _users_meeting_condition self c = Ok s →
  ∃ rows, filtered_events self c = Ok rows ∧ ∀ u, u ∈ s → has_rows u rows.
Proof.
  rewrite users_meeting_condition_unfold.
  destruct (filtered_events self c) as [rows|] eqn:Hf; [|done]. cbn [bind].
  intros Hs. exists rows. split; [done|]. destruct rows as [|e rows].
  - injection Hs as <-. by intros u ?%elem_of_empty.
  - destruct (aggregate_of _ _) as [f|]; cbn [bind] in Hs; [|done].
    injection Hs as <-. intros u. rewrite elem_of_select_groupby. tauto.
Qed.

Lemma users_meeting_condition_universe self c s :
  _users_meeting_condition self c = Ok s → s ⊆ universe_of self.
Proof.
  intros (rows & Hrows & Hs)%users_meeting_condition_Ok_inv u Hu.
  destruct (Hs u Hu) as (e & He & <-).
  unfold universe_of. rewrite elem_of_list_to_set, list_elem_of_fmap.
  eauto using filtered_events_subseteq.
Qed.

Lemma select_users_unknown cmp grp v :
  cmp ∉ known_comparators → select_users cmp grp v = ∅.
Proof.
  unfold known_comparators. intros Hn. unfold select_users.
  repeat case_decide; subst; try done; exfalso; apply Hn; compute_done.
Qed.

Lemma aggregate_of_unknown op prop :
  op ∉ known_operations → aggregate_of op prop = Ok size_agg.
Proof.
  unfold known_operations. intros Hn. unfold aggregate_of.
  repeat case_decide; try done; exfalso; apply Hn;
    repeat match goal with H : _ ∧ _ |- _ => destruct H end;
    subst op; compute_done.
Qed.

Lemma aggregate_of_not_price op prop :
  op = "sum" ∨ op = "avg" → prop ≠ "price" →
  aggregate_of op prop = Ok size_agg.
Proof.
  intros Hop Hp. unfold aggregate_of.
  repeat case_decide; destruct Hop; subst; try done; tauto.
Qed.

Lemma aggregate_of_is_Ok op prop :
  is_Ok (aggregate_of op prop) ↔
  op ≠ "distinct_count" ∨ is_Some (column (target_prop_of prop)).
Proof.
  unfold aggregate_of.
  repeat case_decide;
    repeat match goal with H : _ ∧ _ |- _ => destruct H end;
    subst; try (split; [by left|done]).
  destruct (column _) as [col|]; simpl.
  - split; [by right|done].
  - split; [done|]. intros [?|[? [=]]]. done.
Qed.

Lemma aggregate_of_Raise op prop e :
  aggregate_of op prop = Raise e ↔
  op = "distinct_count" ∧ column (target_prop_of prop) = None
  ∧ e = KeyError (target_prop_of prop).
Proof.
  unfold aggregate_of.
  repeat case_decide;
    repeat match goal with H : _ ∧ _ |- _ => destruct H end;
    subst; try (split; [done|]; intros (? & _); done).
  destruct (column _) as [col|]; simpl.
  - split; [done|]. intros (_ & [=] & _).
  - split; [by intros [= <-]|by intros (_ & _ & ->)].
Qed.

Lemma users_meeting_condition_is_Ok self c :
  is_Ok (_users_meeting_condition self c) ↔ evaluates self c.
Proof.
  rewrite users_meeting_condition_unfold, filtered_events_spec.
  unfold evaluates. case_decide as Hw; cbn [bind]; [|simpl; tauto].
  destruct (window_events self c) as [|e rows].
  { simpl. split; [auto|done]. }
  pose proof (aggregate_of_is_Ok (Condition.operation c)
                (default "" (Condition.property c))) as Hagg.
  destruct (aggregate_of _ _) as [f|]; cbn [bind]; simpl in *.
  - split; [|done]. intros _. split; [done|]. right. by apply Hagg.
  - split; [done|]. intros [_ [?|H]]; [done|]. by apply Hagg.
Qed.

Lemma users_meeting_condition_Raise_inv self c e :
  _users_meeting_condition self c = Raise e ↔
  (¬ window_in_range self c ∧ e = OverflowError)
  ∨ (window_in_range self c
     ∧ window_events self c ≠ []
     ∧ Condition.operation c = "distinct_count"
     ∧ column (target_prop_of (default "" (Condition.property c))) = None
     ∧ e = KeyError (target_prop_of (default "" (Condition.property c)))).
Proof.
  rewrite users_meeting_condition_unfold, filtered_events_spec.
  case_decide as Hw; cbn [bind].
  2:{ split; [intros [= <-]; by left|].
      intros [[_ ->]|[? _]]; done. }
  destruct (window_events self c) as [|e0 rows].
  { split; [done|]. intros [[? _]|(_ & ? & _)]; done. }
  pose proof (aggregate_of_Raise (Condition.operation c)
                (default "" (Condition.property c))) as Hagg.
  destruct (aggregate_of _ _) as [f|e']; cbn [bind].
  - split; [done|]. intros [[? _]|(_ & _ & H)]; [done|].
    by apply Hagg in H.
  - split.
    + intros [= <-]. right. destruct (proj1 (Hagg e') eq_refl) as (? & ? & ?).
      done.
    + intros [[? _]|(_ & _ & H)]; [done|]. apply Hagg in H. congruence.
Qed.

Lemma evaluates_in_range self c :
  window_in_range self c →
  Condition.operation c ≠ "distinct_count" →
  evaluates self c.
Proof. intros Hw Hop. split; [done|]. right. by left. Qed.

(** ** Claims about [_users_meeting_condition] *)

(** C3, as stated, fails: a condition whose operation is outside the
    enumeration does fail when its time window cannot be computed; a
    window of a million days before [now] starts before year 1, and the
    cutoff raises [OverflowError]. *)
Lemma unknown_operation_may_overflow :
  (Condition.operation cart_median_long ∉ known_operations)
  ∧ _users_meeting_condition cart_system cart_median_long
    = Raise OverflowError.
Proof.
  split; [|vm_compute; reflexivity].
  unfold known_operations. simpl. compute_done.
Qed.

(** C3, amended. A condition whose operation is none of count, sum, avg
    and distinct_count is evaluated exactly as the same condition with
    operation count: to the same user set, or to the same exception.  It
    returns a user set when its time window can be computed, and raises
    [OverflowError] otherwise. *)
Theorem unknown_operation_counts self c :
  Condition.operation c ∉ known_operations →
  _users_meeting_condition self c
  = _users_meeting_condition self (with_operation "count" c)
  ∧ (window_in_range self c → ∃ s, _users_meeting_condition self c = Ok s)
  ∧ (¬ window_in_range self c →
     _users_meeting_condition self c = Raise OverflowError).
Proof.
  intros Hop. split; [|split].
  - rewrite !users_meeting_condition_unfold.
    change (filtered_events self (with_operation "count" c))
      with (filtered_events self c).
    destruct (filtered_events self c) as [[|e rows]|]; [done| |done].
    cbn [bind]. by rewrite aggregate_of_unknown.
  - intros Hw.
    destruct (users_meeting_condition_spec self c (window_events self c) size_agg)
      as (s & Hs & _); [by apply filtered_events_in_range
                       |by apply aggregate_of_unknown|eauto].
  - intros Hw. apply users_meeting_condition_overflow.
    by apply filtered_events_Raise.
Qed.

Lemma unknown_operation_counts_witness :
  _users_meeting_condition cart_system (with_operation "median" cart_sum_ge_3000)
  = _users_meeting_condition cart_system
      (with_operation "count" (with_operation "median" cart_sum_ge_3000))
  ∧ (window_in_range cart_system (with_operation "median" cart_sum_ge_3000) →
     ∃ s, _users_meeting_condition cart_system
            (with_operation "median" cart_sum_ge_3000) = Ok s)
  ∧ (¬ window_in_range cart_system (with_operation "median" cart_sum_ge_3000) →
     _users_meeting_condition cart_system
       (with_operation "median" cart_sum_ge_3000) = Raise OverflowError).
Proof.
  apply (unknown_operation_counts cart_system
           (with_operation "median" cart_sum_ge_3000)).
  unfold known_operations. simpl. compute_done.
Defined.

(** C10. A sum or avg condition whose property is not "price" is
    evaluated with count semantics: it ends as the same condition with
    operation count does, and when the filter returns its rows, it
    returns the users whose number of rows meets the comparator. *)
Theorem sum_avg_without_price_counts self c :
  Condition.operation c = "sum" ∨ Condition.operation c = "avg" →
  Condition.property c ≠ Some "price" →
  _users_meeting_condition self c
  = _users_meeting_condition self (with_operation "count" c)
  ∧ ∀ rows, filtered_events self c = Ok rows →
      ∃ s, _users_meeting_condition self c = Ok s
        ∧ ∀ u, u ∈ s ↔
            has_rows u rows
            ∧ satisfies (Condition.condition c)
                (inject_Z (Z.of_nat (length (group_of u rows))))
                (Condition.value c).
Proof.
  intros Hop Hp.
  assert (aggregate_of (Condition.operation c)
            (default "" (Condition.property c)) = Ok size_agg) as Hagg.
  { apply aggregate_of_not_price; [done|].
    destruct (Condition.property c) as [p|]; simpl; [|done]. congruence. }
  split.
  - rewrite !users_meeting_condition_unfold.
    change (filtered_events self (with_operation "count" c))
      with (filtered_events self c).
    destruct (filtered_events self c) as [[|e rows]|]; [done| |done].
    cbn [bind]. by rewrite Hagg.
  - intros rows Hrows.
    apply (users_meeting_condition_spec self c rows size_agg Hrows Hagg).
Qed.

Lemma sum_avg_without_price_counts_witness :
  _users_meeting_condition cart_system sum_of_events_ge_2
  = _users_meeting_condition cart_system
      (with_operation "count" sum_of_events_ge_2)
  ∧ ∀ rows, filtered_events cart_system sum_of_events_ge_2 = Ok rows →
      ∃ s, _users_meeting_condition cart_system sum_of_events_ge_2 = Ok s
        ∧ ∀ u, u ∈ s ↔
            has_rows u rows
            ∧ satisfies (Condition.condition sum_of_events_ge_2)
                (inject_Z (Z.of_nat (length (group_of u rows))))
                (Condition.value sum_of_events_ge_2).
Proof.
  apply (sum_avg_without_price_counts cart_system sum_of_events_ge_2).
  - left. reflexivity.
  - simpl. discriminate.
Defined.

(** C6. With comparator >=, raising the value of a condition never adds
    users: the two evaluations end the same way, and when they return,
    the set for the larger value is included in the set for the smaller. *)
Theorem ge_value_antitone self c (v1 v2 : Q) :
  Condition.condition c = ">=" →
  (v1 <= v2)%Q →
  match _users_meeting_condition self (with_value v1 c),
        _users_meeting_condition self (with_value v2 c) with
  | Ok s1, Ok s2 => s2 ⊆ s1
  | Raise e1, Raise e2 => e1 = e2
  | _, _ => False
  end.
Proof.
  intros Hc Hv. rewrite !users_meeting_condition_unfold.
  change (filtered_events self (with_value v1 c)) with (filtered_events self c).
  change (filtered_events self (with_value v2 c)) with (filtered_events self c).
  destruct (filtered_events self c) as [[|e rows]|]; [done| |done]. cbn [bind].
  simpl Condition.operation. simpl Condition.property.
  destruct (aggregate_of _ _) as [f|]; cbn [bind]; [|done].
  intros u. rewrite !elem_of_select_groupby.
  intros [Hr Hs]. split; [done|]. simpl in *.
  rewrite Hc in *. apply satisfies_ge, Qle_bool_iff in Hs.
  apply satisfies_ge, Qle_bool_iff. eapply Qle_trans; eassumption.
Qed.

Lemma ge_value_antitone_witness :
  match _users_meeting_condition cart_system (with_value 1000 cart_sum_ge_3000),
        _users_meeting_condition cart_system (with_value 3000 cart_sum_ge_3000)
  with
  | Ok s1, Ok s2 => s2 ⊆ s1
  | Raise e1, Raise e2 => e1 = e2
  | _, _ => False
  end.
Proof.
  apply (ge_value_antitone cart_system cart_sum_ge_3000 1000 3000).
  - reflexivity.
  - unfold Qle. simpl. lia.
Defined.

(** C4, as stated, fails: with an unknown comparator, a distinct count
    over a property that is no column raises [KeyError] before the
    comparator is looked at. *)
Lemma unknown_comparator_distinct_count_raises :
  (Condition.condition cart_distinct_events_ne ∉ known_comparators)
  ∧ _users_meeting_condition cart_system cart_distinct_events_ne
    = Raise (KeyError "events").
Proof.
  split; [|vm_compute; reflexivity].
  unfold known_comparators. simpl. compute_done.
Qed.

(** C4, amended. A condition whose comparator is outside >=, >, <=, <, ==
    selects no user, whatever its operation: the only set its evaluation
    returns is the empty one.  It returns it exactly when the time window
    can be computed and, for a distinct count with an event in the
    window, the counted property is a column of the event frame;
    otherwise the evaluation raises. *)
Theorem unknown_comparator_empty self c :
  Condition.condition c ∉ known_comparators →
  (∀ s, _users_meeting_condition self c = Ok s → s = ∅)
  ∧ (_users_meeting_condition self c = Ok ∅ ↔ evaluates self c).
Proof.
  intros Hc.
  assert (∀ s, _users_meeting_condition self c = Ok s → s = ∅) as Hempty.
  { intros s. rewrite users_meeting_condition_unfold.
    destruct (filtered_events self c) as [[|e rows]|]; cbn [bind];
      [by intros [= <-]| |done].
    destruct (aggregate_of _ _) as [f|]; cbn [bind]; [|done].
    intros [= <-]. by apply select_users_unknown. }
  split; [done|].
  rewrite <- users_meeting_condition_is_Ok.
  destruct (_users_meeting_condition self c) as [s|e] eqn:Hs; simpl.
  - split; [done|]. intros _. by rewrite (Hempty s).
  - split; [done|done].
Qed.

Lemma unknown_comparator_empty_witness :
  (∀ s, _users_meeting_condition cart_system cart_count_ne = Ok s → s = ∅)
  ∧ (_users_meeting_condition cart_system cart_count_ne = Ok ∅
     ↔ evaluates cart_system cart_count_ne).
Proof.
  apply (unknown_comparator_empty cart_system cart_count_ne).
  unfold known_comparators. simpl. compute_done.
Defined.

(** C5. For a condition with include = false, the set the loop works with
    is the universe minus the raw match set; it is disjoint from the raw
    match set and their union is the universe. *)
Theorem exclude_is_complement self c met :
  Condition.include c = Some false →
  _users_meeting_condition self c = Ok met →
  let universe := universe_of self in
  let cond_users := cond_users_of universe met c in
  cond_users = universe ∖ met
  ∧ met ∩ cond_users = ∅
  ∧ met ∪ cond_users = universe
  ∧ ∀ current_set,
      loop_body self universe current_set c =
      match current_set with
      | None => Ok (Some (universe ∖ met))
      | Some cur =>
        Ok (Some (if decide (joins_by_union c) then cur ∪ (universe ∖ met)
                  else cur ∩ (universe ∖ met)))
      end.
Proof.
  intros Hi Hm universe cond_users.
  assert (cond_users = universe ∖ met) as Hcu.
  { unfold cond_users, cond_users_of. by rewrite Hi. }
  pose proof (users_meeting_condition_universe _ _ _ Hm) as Hsub.
  rewrite Hcu. split; [done|]. split; [|split].
  - apply set_eq. intros u.
    rewrite elem_of_intersection, elem_of_difference, elem_of_empty. tauto.
  - symmetry. apply union_difference_L. done.
  - intros current_set. unfold loop_body. rewrite Hm. simpl.
    fold universe. fold cond_users. rewrite Hcu.
    destruct current_set as [cur|]; [|done].
    unfold joins_by_union. repeat case_decide; try done; try contradiction.
    rewrite H in H0. discriminate.
Qed.

Lemma exclude_is_complement_witness :
  cond_users_of (universe_of cart_system) ∅ no_payment
  = universe_of cart_system ∖ ∅.
Proof.
  apply (exclude_is_complement cart_system no_payment ∅);
    [reflexivity|vm_compute; reflexivity].
Defined.

(** ** The [avg] branch *)

Lemma mean_agg_fillna g :
  default 0%Q (mean_agg g) = mean_of_present (omap Event.price g).
Proof. unfold mean_agg, mean_of_present. by destruct (omap _ g). Qed.

Lemma omap_price_all_present g :
  Forall (λ e, is_Some (Event.price e)) g →
  omap Event.price g = (λ e, default 0%Z (Event.price e)) <$> g.
Proof.
  induction 1 as [|e g [p Hp] _ IH]; [done|].
  simpl. rewrite Hp. simpl. f_equal. exact IH.
Qed.

Lemma omap_price_all_missing g :
  Forall (λ e, Event.price e = None) g →
  omap Event.price g = []
  ∧ Zsum ((λ e, default 0%Z (Event.price e)) <$> g) = 0%Z.
Proof.
  induction 1 as [|e g Hp _ [IH1 IH2]]; [done|].
  simpl. rewrite Hp. split; [exact IH1 | exact IH2].
Qed.

Lemma mean_zero_filled_uniform g :
  Forall (λ e, is_Some (Event.price e)) g
  ∨ Forall (λ e, Event.price e = None) g →
  (mean_of_present (omap Event.price g) == mean_zero_filled_agg g)%Q.
Proof.
  unfold mean_zero_filled_agg. intros [H|H].
  - rewrite omap_price_all_present by done.
    destruct g as [|e g]; [|reflexivity].
    simpl. unfold float64_mean. by rewrite round64_zero.
  - destruct (omap_price_all_missing g H) as [-> Hz]. simpl.
    unfold float64_mean, exact_mean. rewrite Hz, round64_zero; [done|].
    unfold Qdiv. apply Qmult_0_l.
Qed.

(** The mean rounds: the mean of the prices 1, 1 and 2 is the float64
    nearest to 4/3, which is not 4/3. *)
Lemma float64_mean_rounds :
  (float64_mean [1; 1; 2]%Z == 6004799503160661 # 4503599627370496)%Q
  ∧ ¬ (exact_mean [1; 1; 2]%Z == 6004799503160661 # 4503599627370496)%Q.
Proof.
  split; [vm_compute; reflexivity|].
  intros H. vm_compute in H. discriminate H.
Qed.

(** C1, as stated, fails: a user with one cart row priced 100 and one
    without a price has average 100 in the code and is selected by
    avg >= 100; with the missing price counted as 0 the average would be
    50 and the user would not be selected. *)
Lemma avg_counts_missing_as_zero_fails :
  Condition.operation cart_avg_ge_100 = "avg"
  ∧ Condition.property cart_avg_ge_100 = Some "price"
  ∧ filtered_events mixed_price_system cart_avg_ge_100 = Ok mixed_price_rows
  ∧ _users_meeting_condition mixed_price_system cart_avg_ge_100 = Ok {["A"]}
  ∧ avg_matches_zero_filled cart_avg_ge_100 mixed_price_rows = ∅.
Proof. repeat split; vm_compute; reflexivity. Qed.

(** C1, amended. For a condition with operation avg and property price
    whose filter returns its rows, on a snapshot whose prices are few and
    small enough to be summed exactly, the evaluation returns the users
    with a matching event whose float64 mean price over their matching
    events that have a price (0 when none has one) meets the comparator:
    a missing price is skipped.  Against an integer value this mean
    compares as the exact mean does.  When no user has both priced and
    unpriced matching events, the set is the one obtained by counting a
    missing price as 0. *)
Theorem avg_price_skips_missing self c rows :
  Condition.operation c = "avg" →
  Condition.property c = Some "price" →
  filtered_events self c = Ok rows →
  prices_exact (user_events self) →
  ∃ s, _users_meeting_condition self c = Ok s
    ∧ (∀ u, u ∈ s ↔
         has_rows u rows
         ∧ satisfies (Condition.condition c)
             (mean_of_present (omap Event.price (group_of u rows)))
             (Condition.value c))
    ∧ (integer_value (Condition.value c) →
       ∀ u, u ∈ s ↔
         has_rows u rows
         ∧ satisfies (Condition.condition c)
             (exact_mean_of_present (omap Event.price (group_of u rows)))
             (Condition.value c))
    ∧ (price_uniform rows → s = avg_matches_zero_filled c rows).
Proof.
  intros Hop Hp Hrows Hexact%(prices_exact_filtered self c rows Hrows).
  destruct (users_meeting_condition_spec self c rows (default 0%Q ∘ mean_agg)
              Hrows) as (s & Hs & Hin).
  { unfold aggregate_of. rewrite Hop, Hp. done. }
  assert (∀ u, u ∈ s ↔
            has_rows u rows
            ∧ satisfies (Condition.condition c)
                (mean_of_present (omap Event.price (group_of u rows)))
                (Condition.value c)) as Hmean.
  { intros u. rewrite Hin. simpl. by rewrite mean_agg_fillna. }
  exists s. split; [done|]. split; [done|]. split.
  - intros Hv u. rewrite Hmean.
    destruct (Hexact u) as [Hsum Hlen].
    destruct (omap Event.price (group_of u rows)) as [|p ps] eqn:Hps; [done|].
    unfold mean_of_present, exact_mean_of_present.
    by rewrite float64_mean_satisfies.
  - intros Hu. apply set_eq. intros u. rewrite Hmean.
    unfold avg_matches_zero_filled. rewrite elem_of_select_groupby.
    by rewrite (satisfies_Qeq _ _ _ _ (mean_zero_filled_uniform _ (Hu u))).
Qed.

Lemma mixed_price_rows_exact : prices_exact mixed_price_rows.
Proof.
  intros u. unfold mixed_price_rows, mixed_price_system, user_events, group_of.
  rewrite !filter_cons, filter_nil.
  repeat case_decide; simpl; lia.
Qed.

Lemma avg_price_skips_missing_witness :
  ∃ s, _users_meeting_condition mixed_price_system cart_avg_ge_100 = Ok s
    ∧ (∀ u, u ∈ s ↔
         has_rows u mixed_price_rows
         ∧ satisfies (Condition.condition cart_avg_ge_100)
             (mean_of_present (omap Event.price (group_of u mixed_price_rows)))
             (Condition.value cart_avg_ge_100))
    ∧ (integer_value (Condition.value cart_avg_ge_100) →
       ∀ u, u ∈ s ↔
         has_rows u mixed_price_rows
         ∧ satisfies (Condition.condition cart_avg_ge_100)
             (exact_mean_of_present
                (omap Event.price (group_of u mixed_price_rows)))
             (Condition.value cart_avg_ge_100))
    ∧ (price_uniform mixed_price_rows →
       s = avg_matches_zero_filled cart_avg_ge_100 mixed_price_rows).
Proof.
  apply (avg_price_skips_missing mixed_price_system cart_avg_ge_100
           mixed_price_rows).
  - reflexivity.
  - reflexivity.
  - vm_compute. reflexivity.
  - exact mixed_price_rows_exact.
Defined.

(** ** The loop of [execute_cohort] *)

Lemma for_loop_app self U current_set cs1 cs2 :
  for_loop self U current_set (cs1 ++ cs2) =
  (current_set' ←! for_loop self U current_set cs1;
   for_loop self U current_set' cs2).
Proof.
  revert current_set. induction cs1 as [|c cs1 IH]; intros current_set; [done|].
  simpl. destruct (loop_body self U current_set c) as [a|e]; simpl; [|done].
  apply IH.
Qed.

Lemma loop_body_is_Some self U current_set c acc :
  loop_body self U current_set c = Ok acc → is_Some acc.
Proof.
  unfold loop_body.
  destruct (_users_meeting_condition self c); simpl; [|done].
  destruct current_set; repeat case_decide; intros [= <-]; eauto.
Qed.

Lemma for_loop_is_Some self U current_set cs acc :
  is_Some current_set ∨ cs ≠ [] →
  for_loop self U current_set cs = Ok acc → is_Some acc.
Proof.
  revert current_set. induction cs as [|c cs IH]; intros current_set Hs.
  - simpl. intros [= <-]. destruct Hs; done.
  - simpl. destruct (loop_body self U current_set c) as [a|e] eqn:Hb; simpl; [|done].
    apply IH. left. eauto using loop_body_is_Some.
Qed.

Lemma loop_body_Some self U cur c :
  loop_body self U (Some cur) c =
  (met_users ←! _users_meeting_condition self c;
   Ok (Some (if decide (joins_by_union c)
             then cur ∪ cond_users_of U met_users c
             else cur ∩ cond_users_of U met_users c))).
Proof.
  unfold loop_body, joins_by_union.
  destruct (_users_meeting_condition self c); simpl; [|done].
  repeat case_decide; try done; try contradiction.
  match goal with
  | H1 : ?x = "AND", H2 : ?x = "OR" |- _ => rewrite H1 in H2; discriminate H2
  end.
Qed.

(** C2, as stated, fails: the logic token is upper-cased before it is
    compared, so a second condition with logic "or", which is not the
    token OR, is joined by union; the two conditions select A and B, and
    the cohort evaluates to both users, not to their empty intersection. *)
Lemma lowercase_or_is_union :
  Condition.logic login_any_or ≠ Some "OR"
  ∧ _users_meeting_condition visit_system cart_any = Ok {["A"]}
  ∧ _users_meeting_condition visit_system login_any_or = Ok {["B"]}
  ∧ execute_cohort elements visit_system
      (sample_cohort 1 [cart_any; login_any_or] (Some true)) = Ok ["A"; "B"]
  ∧ elements (({["A"]} : gset string) ∩ {["B"]}) = [].
Proof. repeat split; try (vm_compute; reflexivity). discriminate. Qed.

(** C2, amended. The logic field of the first condition is never used:
    changing it does not change the evaluation.  Every later condition is
    joined to the running set by the logic field of that condition
    itself: by union when the field, upper-cased, is OR, and by
    intersection for every other value (AND, absent, empty, or any other
    token). *)
Theorem fold_uses_own_logic list_of_set self co c cs d :
  Cohort.conditions co = Some (c :: cs) →
  let U := universe_of self in
  (∀ l, execute_cohort list_of_set self
          (with_conditions (with_logic l c :: cs) co)
        = execute_cohort list_of_set self co)
  ∧ for_loop self U None (c :: cs) ≠ Ok None
  ∧ for_loop self U None ((c :: cs) ++ [d]) =
    (current_set ←! for_loop self U None (c :: cs);
     met_users ←! _users_meeting_condition self d;
     let cond_users := cond_users_of U met_users d in
     Ok (Some (match current_set with
               | Some cur => if decide (joins_by_union d)
                             then cur ∪ cond_users else cur ∩ cond_users
               | None => cond_users
               end)))
  ∧ (joins_by_union d ↔
     ∃ s, Condition.logic d = Some s ∧ upper s = "OR").
Proof.
  intros Hco U. split; [|split; [|split]].
  - intros l. unfold execute_cohort. rewrite Hco. reflexivity.
  - intros H. apply for_loop_is_Some in H; [|by right].
    by destruct H.
  - rewrite for_loop_app.
    destruct (for_loop self U None (c :: cs)) as [[cur|]|e]; [| |done].
    + cbn [bind for_loop]. rewrite loop_body_Some.
      by destruct (_users_meeting_condition self d).
    + cbn [bind for_loop]. unfold loop_body.
      by destruct (_users_meeting_condition self d).
  - unfold joins_by_union, logic_or_AND.
    destruct (Condition.logic d) as [s|]; [|split; [done|intros (s & [=] & _)]].
    case_decide as Hs.
    + subst s. split; [done|]. intros (s & [= <-] & H). done.
    + split; [eauto|]. intros (s' & [= <-] & H). done.
Qed.

Lemma fold_uses_own_logic_witness :
  execute_cohort elements visit_system
    (with_conditions [with_logic (Some "OR") cart_any; login_any_or]
       (sample_cohort 1 [cart_any; login_any_or] (Some true)))
  = execute_cohort elements visit_system
      (sample_cohort 1 [cart_any; login_any_or] (Some true)).
Proof.
  destruct (fold_uses_own_logic elements visit_system
              (sample_cohort 1 [cart_any; login_any_or] (Some true))
              cart_any [login_any_or] no_payment eq_refl) as (H & _).
  apply H.
Defined.

(** ** [execute_cohort] and [get_cohort_users] *)

Lemma sorted_Sorted l : Sorted String.le (sorted l).
Proof. apply (Sorted_merge_sort String.le). Qed.

Lemma sorted_Permutation l : sorted l ≡ₚ l.
Proof. apply merge_sort_Permutation. Qed.

Lemma sorted_enumeration ls1 ls2 (s : gset string) :
  enumerates ls1 → enumerates ls2 → sorted (ls1 s) = sorted (ls2 s).
Proof.
  intros H1 H2. apply (Sorted_unique String.le); auto using sorted_Sorted.
  by rewrite !sorted_Permutation, (H1 s), (H2 s).
Qed.

Lemma cond_users_of_universe U met c :
  met ⊆ U → cond_users_of U met c ⊆ U.
Proof.
  intros Hm. unfold cond_users_of.
  destruct (default true (Condition.include c)); [done|].
  intros u. rewrite elem_of_difference. tauto.
Qed.

Lemma loop_body_Ok_inv self U current_set c acc :
  loop_body self U current_set c = Ok acc →
  ∃ met, _users_meeting_condition self c = Ok met
    ∧ acc = Some
        match current_set with
        | None => cond_users_of U met c
        | Some cur => if decide (joins_by_union c)
                      then cur ∪ cond_users_of U met c
                      else cur ∩ cond_users_of U met c
        end.
Proof.
  destruct current_set as [cur|].
  - rewrite loop_body_Some.
    destruct (_users_meeting_condition self c) as [met|]; [|done].
    simpl. intros [= <-]. eauto.
  - unfold loop_body.
    destruct (_users_meeting_condition self c) as [met|]; [|done].
    simpl. intros [= <-]. eauto.
Qed.

Lemma for_loop_universe self current_set cs s :
  (∀ cur, current_set = Some cur → cur ⊆ universe_of self) →
  for_loop self (universe_of self) current_set cs = Ok (Some s) →
  s ⊆ universe_of self.
Proof.
  revert current_set. induction cs as [|c cs IH]; intros current_set Hcur.
  - simpl. intros [= ->]. by apply Hcur.
  - simpl.
    destruct (loop_body self (universe_of self) current_set c) as [acc|] eqn:Hb;
      [|done].
    simpl. apply IH. intros cur' ->.
    apply loop_body_Ok_inv in Hb as (met & Hmet & [= ->]).
    pose proof (cond_users_of_universe _ _ c
                  (users_meeting_condition_universe _ _ _ Hmet)) as Hcu.
    destruct current_set as [cur|].
    + specialize (Hcur cur eq_refl). case_decide.
      * intros u [?|?]%elem_of_union; auto.
      * intros u [? ?]%elem_of_intersection; auto.
    + done.
Qed.

Lemma execute_cohort_Ok_inv ls self co r :
  execute_cohort ls self co = Ok r →
  (default [] (Cohort.conditions co) = [] ∧ r = [])
  ∨ ∃ s, for_loop self (universe_of self) None
           (default [] (Cohort.conditions co)) = Ok (Some s)
         ∧ r = sorted (ls s).
Proof.
  unfold execute_cohort.
  destruct (default [] (Cohort.conditions co)) as [|c cs] eqn:Hcs.
  { intros [= <-]. by left. }
  destruct (for_loop _ _ _ _) as [[s|]|e] eqn:Hl; cbn [bind]; [| |done].
  - intros [= <-]. right. eauto.
  - apply for_loop_is_Some in Hl; [|by right]. by destruct Hl.
Qed.


Lemma for_loop_Raise_inv self U current_set cs e :
  for_loop self U current_set cs = Raise e ↔
  ∃ pre c post, cs = pre ++ c :: post
    ∧ Forall (λ c', is_Ok (_users_meeting_condition self c')) pre
    ∧ _users_meeting_condition self c = Raise e.
Proof.
  revert current_set. induction cs as [|c cs IH]; intros current_set.
  { simpl. split; [done|]. intros ([|??] & ? & ? & ? & _); done. }
  simpl. destruct (loop_body self U current_set c) as [acc|e'] eqn:Hb; simpl.
  - apply loop_body_Ok_inv in Hb as (met & Hmet & _).
    rewrite IH. split.
    + intros (pre & c' & post & -> & Hpre & Hc').
      exists (c :: pre), c', post. split; [done|]. split; [|done].
      constructor; [by rewrite Hmet|done].
    + intros ([|c0 pre] & c' & post & Heq & Hpre & Hc'); simplify_eq/=.
      * congruence.
      * apply Forall_cons in Hpre as [_ Hpre]. eauto 6.
  - assert (_users_meeting_condition self c = Raise e') as Hc.
    { unfold loop_body in Hb.
      destruct (_users_meeting_condition self c); simpl in Hb.
      - destruct current_set; repeat case_decide; done.
      - congruence. }
    split.
    + intros [= <-]. exists [], c, cs. done.
    + intros ([|c0 pre] & c' & post & Heq & Hpre & Hc'); simplify_eq/=.
      * congruence.
      * apply Forall_cons in Hpre as [Hok _]. rewrite Hc in Hok. done.
Qed.

Lemma execute_cohort_Raise_inv ls self co e :
  execute_cohort ls self co = Raise e ↔
  ∃ pre c post, default [] (Cohort.conditions co) = pre ++ c :: post
    ∧ Forall (λ c', is_Ok (_users_meeting_condition self c')) pre
    ∧ _users_meeting_condition self c = Raise e.
Proof.
  unfold execute_cohort.
  destruct (default [] (Cohort.conditions co)) as [|c cs] eqn:Hcs.
  { split; [done|]. intros ([|??] & ? & ? & ? & _); done. }
  rewrite <- (for_loop_Raise_inv self (universe_of self) None).
  destruct (for_loop _ _ _ _) as [[s|]|e']; cbn [bind];
    split; intros [= ->]; done.
Qed.

Lemma for_loop_Ok_all self U current_set cs acc :
  for_loop self U current_set cs = Ok acc →
  Forall (λ c, is_Ok (_users_meeting_condition self c)) cs.
Proof.
  revert current_set. induction cs as [|c cs IH]; intros current_set; [done|].
  simpl. destruct (loop_body self U current_set c) as [acc'|] eqn:Hb; [|done].
  simpl. intros Hl. apply loop_body_Ok_inv in Hb as (met & Hmet & _).
  constructor; [by rewrite Hmet|by eapply IH].
Qed.

Lemma execute_cohort_is_Ok_iff ls self co :
  is_Ok (execute_cohort ls self co) ↔
  Forall (λ c, is_Ok (_users_meeting_condition self c))
         (default [] (Cohort.conditions co)).
Proof.
  split.
  - destruct (execute_cohort ls self co) as [r|e] eqn:Hr; [|done]. intros _.
    apply execute_cohort_Ok_inv in Hr as [[-> _]|(s & Hl & _)]; [done|].
    by eapply for_loop_Ok_all.
  - intros Hall.
    destruct (execute_cohort ls self co) as [|e] eqn:He; [done|].
    apply execute_cohort_Raise_inv in He
      as (pre & c & post & Heq & _ & Hc).
    rewrite Heq in Hall. apply Forall_app in Hall as [_ Hall].
    apply Forall_cons in Hall as [Hok _]. rewrite Hc in Hok. done.
Qed.

Lemma execute_cohort_sorted_skeleton ls self co r :
  enumerates ls →
  execute_cohort ls self co = Ok r →
  StronglySorted String.le r ∧ NoDup r.
Proof.
  intros Hls Hr. apply execute_cohort_Ok_inv in Hr as [[_ ->]|(s & _ & ->)].
  { split; constructor. }
  split.
  - apply Sorted_StronglySorted; [apply _|apply sorted_Sorted].
  - rewrite sorted_Permutation, (Hls s). apply NoDup_elements.
Qed.

Lemma execute_cohort_evaluates ls self co :
  is_Ok (execute_cohort ls self co)
  ↔ Forall (evaluates self) (default [] (Cohort.conditions co)).
Proof.
  rewrite execute_cohort_is_Ok_iff, !Forall_forall.
  split; intros H c Hc; apply users_meeting_condition_is_Ok, H, Hc.
Qed.

Lemma execute_cohort_evaluated ls self co :
  Forall (evaluates self) (default [] (Cohort.conditions co)) →
  ∃ r, execute_cohort ls self co = Ok r.
Proof.
  intros H%(execute_cohort_evaluates ls).
  destruct (execute_cohort ls self co) as [r|]; [eauto|done].
Qed.

(** C7, as stated, fails: a cohort with a distinct count over a property
    that is no column does not evaluate to a sequence, it raises. *)
Lemma execute_cohort_may_raise :
  execute_cohort elements cart_system
    (sample_cohort 1 [cart_distinct_events_ge] (Some true))
  = Raise (KeyError "events").
Proof. vm_compute. reflexivity. Qed.

(** C7, amended. Whatever order the final set is enumerated in, the
    evaluation of a cohort against a fixed snapshot and now ends the same
    way; a sequence it returns is in ascending order without duplicates;
    and it returns a sequence exactly when each of its conditions is
    evaluated to a user set: the time window of the condition can be
    computed and, for a distinct count with an event in the window, the
    counted property is a column of the event frame. *)
Theorem execute_cohort_sorted_deterministic ls1 ls2 self co :
  enumerates ls1 → enumerates ls2 →
  execute_cohort ls1 self co = execute_cohort ls2 self co
  ∧ (∀ r, execute_cohort ls1 self co = Ok r →
          StronglySorted String.le r ∧ NoDup r)
  ∧ (is_Ok (execute_cohort ls1 self co)
     ↔ Forall (evaluates self) (default [] (Cohort.conditions co))).
Proof.
  intros H1 H2. split; [|split].
  - unfold execute_cohort.
    destruct (default [] (Cohort.conditions co)) as [|c cs]; [done|].
    destruct (for_loop self (universe_of self) None (c :: cs))
      as [[s|]|e]; cbn [bind]; [|done|done].
    by rewrite (sorted_enumeration ls1 ls2).
  - intros r. by apply execute_cohort_sorted_skeleton.
  - apply execute_cohort_evaluates.
Qed.

Lemma execute_cohort_sorted_deterministic_witness :
  let co := sample_cohort 1 [cart_sum_ge_3000; no_payment] (Some true) in
  execute_cohort elements cart_system co
  = execute_cohort (reverse ∘ elements) cart_system co
  ∧ (∀ r, execute_cohort elements cart_system co = Ok r →
          StronglySorted String.le r ∧ NoDup r)
  ∧ (is_Ok (execute_cohort elements cart_system co)
     ↔ Forall (evaluates cart_system) (default [] (Cohort.conditions co))).
Proof.
  apply (execute_cohort_sorted_deterministic elements (reverse ∘ elements)).
  - intros s. reflexivity.
  - intros s. simpl. apply reverse_Permutation.
Defined.

(** C8. A cohort without conditions evaluates to the empty sequence, and
    a condition whose action and time window match no event has the
    empty raw match set; neither raises. *)
Theorem empty_inputs_evaluate_empty list_of_set self :
  (∀ co, default [] (Cohort.conditions co) = [] →
         execute_cohort list_of_set self co = Ok [])
  ∧ (∀ c, filtered_events self c = Ok [] →
          _users_meeting_condition self c = Ok ∅).
Proof.
  split.
  - intros co Hco. unfold execute_cohort. by rewrite Hco.
  - apply users_meeting_condition_no_rows.
Qed.

Lemma empty_inputs_evaluate_empty_witness :
  execute_cohort elements cart_system (sample_cohort 1 [] (Some true)) = Ok []
  ∧ _users_meeting_condition cart_system no_payment = Ok ∅.
Proof.
  destruct (empty_inputs_evaluate_empty elements cart_system) as [H1 H2].
  split; [apply H1|apply H2]; reflexivity.
Defined.

Lemma head_filter_registered self cohort_id :
  match head (filter (λ c, Cohort.id c = cohort_id) (cohorts self)) with
  | Some c => registered self cohort_id c
  | None => ∀ c, c ∈ cohorts self → Cohort.id c ≠ cohort_id
  end.
Proof.
  unfold registered. induction (cohorts self) as [|c l IH].
  { simpl. intros c Hc. by apply elem_of_nil in Hc. }
  rewrite filter_cons. case_decide as Hid.
  - simpl. exists [], l. done.
  - destruct (head (filter _ l)) as [c'|].
    + destruct IH as (before & after & -> & Hc' & Hb).
      exists (c :: before), after. split; [done|]. split; [done|].
      by constructor.
    + intros c' [->|Hc']%elem_of_cons; [done|]. by apply IH.
Qed.

Lemma registered_head_filter self cohort_id c :
  registered self cohort_id c →
  head (filter (λ c, Cohort.id c = cohort_id) (cohorts self)) = Some c.
Proof.
  intros (before & after & -> & Hc & Hb).
  induction Hb as [|c' before Hc' _ IH]; simpl.
  - rewrite filter_cons. by rewrite decide_True.
  - rewrite filter_cons. by rewrite decide_False.
Qed.

(** C9. [get_cohort_users] returns the empty sequence, without raising,
    when the registry has no cohort with the id or when the cohort with
    the id is not active; otherwise it returns what [execute_cohort]
    returns for that cohort. *)
Theorem get_cohort_users_lookup list_of_set self cohort_id :
  ((∀ c, c ∈ cohorts self → Cohort.id c ≠ cohort_id) →
   get_cohort_users list_of_set self cohort_id = Ok [])
  ∧ (∀ c, registered self cohort_id c →
          Cohort.active c ≠ Some true →
          get_cohort_users list_of_set self cohort_id = Ok [])
  ∧ (∀ c, registered self cohort_id c →
          Cohort.active c = Some true →
          get_cohort_users list_of_set self cohort_id
          = execute_cohort list_of_set self c).
Proof.
  unfold get_cohort_users. split; [|split].
  - intros Hno. pose proof (head_filter_registered self cohort_id) as H.
    destruct (head _) as [c|]; [|done].
    destruct H as (before & after & Hc & Hid & _).
    exfalso. apply (Hno c); [|done]. rewrite Hc. set_solver.
  - intros c Hc Ha. rewrite (registered_head_filter _ _ _ Hc).
    destruct (Cohort.active c) as [[]|]; done.
  - intros c Hc Ha. rewrite (registered_head_filter _ _ _ Hc), Ha. done.
Qed.

Lemma get_cohort_users_lookup_witness :
  get_cohort_users elements cart_registry 3 = Ok []
  ∧ get_cohort_users elements cart_registry 2 = Ok []
  ∧ get_cohort_users elements cart_registry 1
    = execute_cohort elements cart_registry
        (sample_cohort 1 [cart_sum_ge_3000; no_payment] (Some true)).
Proof.
  split; [|split].
  - destruct (get_cohort_users_lookup elements cart_registry 3) as (H & _ & _).
    apply H. intros c Hc. simpl in Hc.
    apply elem_of_cons in Hc as [->|Hc]; [discriminate|].
    apply elem_of_cons in Hc as [->|Hc]; [discriminate|].
    by apply elem_of_nil in Hc.
  - destruct (get_cohort_users_lookup elements cart_registry 2) as (_ & H & _).
    apply (H (sample_cohort 2 [cart_any] (Some false))).
    + exists [sample_cohort 1 [cart_sum_ge_3000; no_payment] (Some true)], [].
      split; [reflexivity|]. split; [reflexivity|].
      constructor; [discriminate|constructor].
    + discriminate.
  - destruct (get_cohort_users_lookup elements cart_registry 1) as (_ & _ & H).
    apply (H (sample_cohort 1 [cart_sum_ge_3000; no_payment] (Some true))).
    + exists [], [sample_cohort 2 [cart_any] (Some false)].
      split; [reflexivity|]. split; [reflexivity|]. constructor.
    + reflexivity.
Defined.

(** ** Further properties of the engine *)

(** X1. Every user id that [execute_cohort] returns is the id of a user
    with at least one event in the snapshot, so the result is never longer
    than the number of distinct users. *)
Theorem execute_cohort_within_universe ls self co r :
  enumerates ls →
  execute_cohort ls self co = Ok r →
  (∀ u, u ∈ r → ∃ e, e ∈ user_events self ∧ Event.user_id e = u)
  ∧ length r ≤ size (universe_of self).
Proof.
  intros Hls Hr. apply execute_cohort_Ok_inv in Hr as [[_ ->]|(s & Hl & ->)].
  { split; [by intros u ?%elem_of_nil|simpl; lia]. }
  apply for_loop_universe in Hl; [|done]. split.
  - intros u. rewrite sorted_Permutation, (Hls s), elem_of_elements.
    intros Hu%Hl. unfold universe_of in Hu.
    apply elem_of_list_to_set, list_elem_of_fmap in Hu as (e & -> & He). eauto.
  - rewrite sorted_Permutation, (Hls s). apply (subseteq_size s), Hl.
Qed.

Lemma execute_cohort_within_universe_witness :
  (∀ u, u ∈ ["A"] → ∃ e, e ∈ user_events cart_system ∧ Event.user_id e = u)
  ∧ length ["A"] ≤ size (universe_of cart_system).
Proof.
  apply (execute_cohort_within_universe elements cart_system
           (sample_cohort 1 [cart_sum_ge_3000; no_payment] (Some true))).
  - intros s. reflexivity.
  - reflexivity.
Defined.

(** X2. [_users_meeting_condition] raises in two situations only.  When
    the time window cannot be computed (the number of days is beyond what
    [timedelta] accepts, or the cutoff is no [datetime]), it raises
    [OverflowError].  Otherwise, when the operation is distinct_count,
    the property it counts (sku_id when the property is absent or empty)
    is no column of the frame, and at least one event passes the filter,
    it raises the [KeyError] of that property. *)
Theorem users_meeting_condition_raises_iff self c e :
  _users_meeting_condition self c = Raise e ↔
  (¬ window_in_range self c ∧ e = OverflowError)
  ∨ (window_in_range self c
     ∧ window_events self c ≠ []
     ∧ Condition.operation c = "distinct_count"
     ∧ column (target_prop_of (default "" (Condition.property c))) = None
     ∧ e = KeyError (target_prop_of (default "" (Condition.property c)))).
Proof. apply users_meeting_condition_Raise_inv. Qed.

(** X3. [execute_cohort] raises exactly when the evaluation of one of the
    conditions raises, and it raises the exception of the first such
    condition. *)
Theorem execute_cohort_raises_first ls self co e :
  execute_cohort ls self co = Raise e ↔
  ∃ pre c post, default [] (Cohort.conditions co) = pre ++ c :: post
    ∧ Forall (λ c', is_Ok (_users_meeting_condition self c')) pre
    ∧ _users_meeting_condition self c = Raise e.
Proof. apply execute_cohort_Raise_inv. Qed.
(** ** Aggregations and comparators *)

Lemma Zsum_omap_price g :
  Zsum (omap Event.price g) = Zsum ((λ e, default 0%Z (Event.price e)) <$> g).
Proof.
  induction g as [|e g IH]; [done|].
  cbn. destruct (Event.price e) as [p|]; cbn.
  - f_equal. exact IH.
  - exact IH.
Qed.

(** X4. For a condition with operation sum and property price whose
    filter returns its rows, on a snapshot whose prices are few and small
    enough to be summed exactly, the evaluation returns the users with a
    matching event whose prices, a missing price counting as 0, sum to a
    value that meets the comparator; each of these sums is a float64. *)
Theorem sum_price_missing_is_zero self c rows :
  Condition.operation c = "sum" →
  Condition.property c = Some "price" →
  filtered_events self c = Ok rows →
  prices_exact (user_events self) →
  ∃ s, _users_meeting_condition self c = Ok s
    ∧ (∀ u, u ∈ s ↔
         has_rows u rows
         ∧ satisfies (Condition.condition c)
             (inject_Z (Zsum ((λ e, default 0%Z (Event.price e))
                                <$> group_of u rows)))
             (Condition.value c))
    ∧ ∀ u, (round64 (sum_of_present (group_of u rows))
            == sum_of_present (group_of u rows))%Q.
Proof.
  intros Hop Hp Hrows Hexact%(prices_exact_filtered self c rows Hrows).
  destruct (users_meeting_condition_spec self c rows (default 0%Q ∘ sum_agg)
              Hrows) as (s & Hs & Hin).
  { unfold aggregate_of. rewrite Hop, Hp. done. }
  exists s. split; [done|]. split.
  - intros u. rewrite Hin. simpl. by rewrite Zsum_omap_price.
  - intros u. apply round64_integer; [done|].
    destruct (Hexact u) as [Hsum _].
    pose proof (Zsum_abs_le (omap Event.price (group_of u rows))). lia.
Qed.

Lemma cart_rows_exact : prices_exact cart_rows.
Proof.
  intros u. unfold cart_rows, cart_system, user_events, group_of.
  rewrite !filter_cons, filter_nil.
  repeat case_decide; simpl; lia.
Qed.

Lemma sum_price_missing_is_zero_witness :
  ∃ s, _users_meeting_condition cart_system cart_sum_ge_3000 = Ok s
    ∧ (∀ u, u ∈ s ↔
         has_rows u cart_rows
         ∧ satisfies (Condition.condition cart_sum_ge_3000)
             (inject_Z (Zsum ((λ e, default 0%Z (Event.price e))
                                <$> group_of u cart_rows)))
             (Condition.value cart_sum_ge_3000))
    ∧ ∀ u, (round64 (sum_of_present (group_of u cart_rows))
            == sum_of_present (group_of u cart_rows))%Q.
Proof.
  apply (sum_price_missing_is_zero cart_system cart_sum_ge_3000 cart_rows).
  - reflexivity.
  - reflexivity.
  - vm_compute. reflexivity.
  - exact cart_rows_exact.
Defined.

Lemma nunique_sku_id g :
  nunique_agg (λ e, StrCell (Event.sku_id e)) g
  = inject_Z (Z.of_nat (length (remove_dups (Event.sku_id <$> g)))).
Proof.
  unfold nunique_agg.
  assert (filter (λ c0, c0 ≠ NaN) ((λ e0, StrCell (Event.sku_id e0)) <$> g)
          = StrCell <$> (Event.sku_id <$> g)) as ->.
  { induction g as [|e0 g IH]; [done|].
    rewrite !fmap_cons, filter_cons, decide_True by done.
    f_equal. exact IH. }
  assert (∀ l : list string,
            length (remove_dups (StrCell <$> l)) = length (remove_dups l))
    as Hl.
  { intros l. induction l as [|x l IH]; [done|].
    rewrite fmap_cons. simpl remove_dups.
    destruct (decide_rel elem_of x l) as [Hx|Hx];
      destruct (decide_rel elem_of (StrCell x) (StrCell <$> l)) as [Hy|Hy];
      simpl; rewrite ?IH; try done.
    - exfalso. apply Hy, list_elem_of_fmap. eauto.
    - exfalso. apply list_elem_of_fmap in Hy as (y & [= ->] & Hy). done. }
  by rewrite Hl.
Qed.

(** X5. A distinct_count condition whose property is absent or empty
    counts the distinct values of sku_id: it ends as the same condition
    with property sku_id does, and when the filter returns its rows, it
    returns the users with a matching event whose number of distinct
    sku_id values meets the comparator. *)
Theorem distinct_count_defaults_to_sku_id self c :
  Condition.operation c = "distinct_count" →
  default "" (Condition.property c) = "" →
  _users_meeting_condition self c
  = _users_meeting_condition self (with_property (Some "sku_id") c)
  ∧ ∀ rows, filtered_events self c = Ok rows →
      ∃ s, _users_meeting_condition self c = Ok s
        ∧ ∀ u, u ∈ s ↔
            has_rows u rows
            ∧ satisfies (Condition.condition c)
                (inject_Z (Z.of_nat (length (remove_dups
                   (Event.sku_id <$> group_of u rows)))))
                (Condition.value c).
Proof.
  intros Hop Hp.
  assert (aggregate_of (Condition.operation c)
            (default "" (Condition.property c))
          = Ok (nunique_agg (λ e, StrCell (Event.sku_id e)))) as Hagg.
  { unfold aggregate_of. rewrite Hop, Hp. done. }
  split.
  - rewrite !users_meeting_condition_unfold.
    change (filtered_events self (with_property (Some "sku_id") c))
      with (filtered_events self c).
    destruct (filtered_events self c) as [[|e rows]|]; [done| |done].
    cbn [bind]. rewrite Hagg. simpl Condition.operation.
    simpl Condition.property. unfold aggregate_of. rewrite Hop. done.
  - intros rows Hrows.
    destruct (users_meeting_condition_spec self c rows _ Hrows Hagg)
      as (s & Hs & Hin).
    exists s. split; [done|]. intros u. by rewrite Hin, nunique_sku_id.
Qed.

Lemma distinct_count_defaults_to_sku_id_witness :
  _users_meeting_condition cart_system
    (with_property None cart_distinct_events_ge)
  = _users_meeting_condition cart_system
      (with_property (Some "sku_id") (with_property None cart_distinct_events_ge))
  ∧ ∀ rows, filtered_events cart_system
              (with_property None cart_distinct_events_ge) = Ok rows →
      ∃ s, _users_meeting_condition cart_system
             (with_property None cart_distinct_events_ge) = Ok s
        ∧ ∀ u, u ∈ s ↔
            has_rows u rows
            ∧ satisfies
                (Condition.condition (with_property None cart_distinct_events_ge))
                (inject_Z (Z.of_nat (length (remove_dups
                   (Event.sku_id <$> group_of u rows)))))
                (Condition.value (with_property None cart_distinct_events_ge)).
Proof.
  apply (distinct_count_defaults_to_sku_id cart_system
           (with_property None cart_distinct_events_ge)); reflexivity.
Defined.

Lemma users_meeting_condition_with_condition self c cmp rows :
  filtered_events self c = Ok rows →
  is_Ok (_users_meeting_condition self c) →
  ∃ (f : list Event.t → Q) s,
    _users_meeting_condition self (with_condition cmp c) = Ok s
    ∧ ∀ cmp', ∃ s',
        _users_meeting_condition self (with_condition cmp' c) = Ok s'
        ∧ ∀ u, u ∈ s' ↔
            has_rows u rows
            ∧ satisfies cmp' (f (group_of u rows)) (Condition.value c).
Proof.
  intros Hrows Hok.
  assert (∃ f : list Event.t → Q, ∀ cmp', ∃ s',
            _users_meeting_condition self (with_condition cmp' c) = Ok s'
            ∧ ∀ u, u ∈ s' ↔
                has_rows u rows
                ∧ satisfies cmp' (f (group_of u rows)) (Condition.value c))
    as [f Hf].
  { destruct (aggregate_of (Condition.operation c)
                (default "" (Condition.property c))) as [f|e] eqn:Hagg.
    - exists f. intros cmp'.
      apply (users_meeting_condition_spec self (with_condition cmp' c) rows f);
        done.
    - exists size_agg. intros cmp'.
      rewrite users_meeting_condition_unfold in Hok |- *.
      change (filtered_events self (with_condition cmp' c))
        with (filtered_events self c).
      rewrite Hrows in Hok |- *. cbn [bind] in Hok |- *.
      destruct rows as [|e0 rows].
      + exists ∅. split; [done|]. by apply no_rows_empty.
      + rewrite Hagg in Hok. done. }
  exists f. destruct (Hf cmp) as (s & Hs & _). exists s. done.
Qed.

(** X6. For a condition that evaluates without raising, with a value
    that is a number, the five comparators split the users with a
    matching event: the users selected by < are those not selected by >=,
    the users selected by > are those not selected by <=, and the users
    selected by == are those selected by both >= and <=. *)
Theorem comparators_partition self c :
  is_Ok (_users_meeting_condition self c) →
  ∃ rows ge gt le lt eq,
    filtered_events self c = Ok rows
    ∧ _users_meeting_condition self (with_condition ">=" c) = Ok ge
    ∧ _users_meeting_condition self (with_condition ">" c) = Ok gt
    ∧ _users_meeting_condition self (with_condition "<=" c) = Ok le
    ∧ _users_meeting_condition self (with_condition "<" c) = Ok lt
    ∧ _users_meeting_condition self (with_condition "==" c) = Ok eq
    ∧ lt = list_to_set (Event.user_id <$> rows) ∖ ge
    ∧ gt = list_to_set (Event.user_id <$> rows) ∖ le
    ∧ eq = ge ∩ le.
Proof.
  intros Hok.
  destruct (_users_meeting_condition self c) as [s0|] eqn:Hs0; [|done].
  destruct (users_meeting_condition_Ok_inv self c s0 Hs0) as (rows & Hrows & _).
  rewrite <- Hs0 in Hok.
  destruct (users_meeting_condition_with_condition self c ">=" rows Hrows Hok)
    as (f & _ & _ & Hf).
  destruct (Hf ">=") as (ge & Hge' & Hge).
  destruct (Hf ">") as (gt & Hgt' & Hgt).
  destruct (Hf "<=") as (le & Hle' & Hle).
  destruct (Hf "<") as (lt & Hlt' & Hlt).
  destruct (Hf "==") as (eq & Heq' & Heq).
  exists rows, ge, gt, le, lt, eq. repeat (split; [done|]).
  assert (∀ u, u ∈ (list_to_set (Event.user_id <$> rows) : gset string)
               ↔ has_rows u rows) as Hall.
  { intros u. by rewrite elem_of_list_to_set, has_rows_elem_of. }
  split; [|split]; apply set_eq; intros u.
  - rewrite elem_of_difference, Hall, Hlt, Hge.
    rewrite <- satisfies_lt, <- satisfies_ge, negb_true_iff.
    destruct (Qle_bool _ _); intuition congruence.
  - rewrite elem_of_difference, Hall, Hgt, Hle.
    rewrite <- satisfies_gt, <- satisfies_le, negb_true_iff.
    destruct (Qle_bool _ _); intuition congruence.
  - rewrite elem_of_intersection, Heq, Hge, Hle.
    rewrite <- satisfies_eq, <- satisfies_ge, <- satisfies_le.
    rewrite Qeq_bool_iff, !Qle_bool_iff. split.
    + intros [? E]. rewrite E. split; (split; [done|apply Qle_refl]).
    + intros [[? ?] [_ ?]]. split; [done|]. by apply Qle_antisym.
Qed.

Lemma comparators_partition_witness :
  ∃ rows ge gt le lt eq,
    filtered_events cart_system cart_sum_ge_3000 = Ok rows
    ∧ _users_meeting_condition cart_system (with_condition ">=" cart_sum_ge_3000) = Ok ge
    ∧ _users_meeting_condition cart_system (with_condition ">" cart_sum_ge_3000) = Ok gt
    ∧ _users_meeting_condition cart_system (with_condition "<=" cart_sum_ge_3000) = Ok le
    ∧ _users_meeting_condition cart_system (with_condition "<" cart_sum_ge_3000) = Ok lt
    ∧ _users_meeting_condition cart_system (with_condition "==" cart_sum_ge_3000) = Ok eq
    ∧ lt = list_to_set (Event.user_id <$> rows) ∖ ge
    ∧ gt = list_to_set (Event.user_id <$> rows) ∖ le
    ∧ eq = ge ∩ le.
Proof.
  apply (comparators_partition cart_system cart_sum_ge_3000).
  vm_compute. exact I.
Defined.

(** ** Time windows and conjunctive cohorts *)

Lemma length_filter_filter_mono {A} (P Q R : A → Prop)
    `{!∀ x, Decision (P x), !∀ x, Decision (Q x), !∀ x, Decision (R x)}
    (l : list A) :
  (∀ x, P x → Q x) →
  length (filter R (filter P l)) ≤ length (filter R (filter Q l)).
Proof.
  intros HPQ. induction l as [|x l IH]; [done|].
  rewrite !filter_cons.
  destruct (decide (P x)) as [HP|HP].
  - rewrite (decide_True (P:=Q x)) by auto. rewrite !filter_cons.
    destruct (decide (R x)); simpl; lia.
  - destruct (decide (Q x)); [|done]. rewrite filter_cons.
    destruct (decide (R x)); simpl; lia.
Qed.

Lemma count_window_mono self c (t1 t2 : Z) :
  Condition.operation c = "count" →
  Condition.condition c = ">=" ∨ Condition.condition c = ">" →
  (t1 ≤ t2)%Z →
  window_in_range self (with_timeframe (Some t1) c) →
  window_in_range self (with_timeframe (Some t2) c) →
  ∃ s1 s2,
    _users_meeting_condition self (with_timeframe (Some t1) c) = Ok s1
    ∧ _users_meeting_condition self (with_timeframe (Some t2) c) = Ok s2
    ∧ s1 ⊆ s2.
Proof.
  intros Hop Hcmp Ht Hw1 Hw2.
  assert (∀ t, aggregate_of (Condition.operation (with_timeframe (Some t) c))
                 (default "" (Condition.property (with_timeframe (Some t) c)))
               = Ok size_agg) as Hagg.
  { intros t. simpl. unfold aggregate_of. by rewrite Hop. }
  destruct (users_meeting_condition_spec self _ _ _
              (filtered_events_in_range _ _ Hw1) (Hagg t1)) as (s1 & -> & H1).
  destruct (users_meeting_condition_spec self _ _ _
              (filtered_events_in_range _ _ Hw2) (Hagg t2)) as (s2 & -> & H2).
  exists s1, s2. split; [done|]. split; [done|].
  intros u. rewrite H1, H2. simpl Condition.condition. simpl Condition.value.
  set (rows1 := window_events self (with_timeframe (Some t1) c)).
  set (rows2 := window_events self (with_timeframe (Some t2) c)).
  assert (∀ e, e ∈ rows1 → e ∈ rows2) as Hsub.
  { intros e. unfold rows1, rows2, window_events.
    rewrite !list_elem_of_filter. simpl.
    unfold microseconds_per_day. intros [[? ?] ?]. split; [split|]; [done|lia|done]. }
  assert (length (group_of u rows1) ≤ length (group_of u rows2)) as Hlen.
  { unfold group_of, rows1, rows2, window_events.
    apply length_filter_filter_mono.
    simpl. unfold microseconds_per_day. intros e [? ?]. split; [done|lia]. }
  assert (inject_Z (Z.of_nat (length (group_of u rows1)))
          <= inject_Z (Z.of_nat (length (group_of u rows2))))%Q as HlenQ.
  { rewrite <- Zle_Qle. lia. }
  intros [(e & He & Hu) Hsat]. split; [exists e; auto|].
  unfold size_agg in *. destruct Hcmp as [Hc|Hc]; rewrite Hc in *.
  - apply satisfies_ge, Qle_bool_iff in Hsat.
    apply satisfies_ge, Qle_bool_iff. eapply Qle_trans; eassumption.
  - apply satisfies_gt, Qlt_bool_iff in Hsat.
    apply satisfies_gt, Qlt_bool_iff. eapply Qlt_le_trans; eassumption.
Qed.

(** X7. For a condition with operation count and comparator >= or >,
    widening the time window never removes users: with timeframe t1 <= t2,
    when both time windows can be computed, neither evaluation raises and
    the set for t1 is included in the set for t2. *)
Theorem wider_window_keeps_counted_users self c (t1 t2 : Z) :
  Condition.operation c = "count" →
  Condition.condition c = ">=" ∨ Condition.condition c = ">" →
  (t1 ≤ t2)%Z →
  window_in_range self (with_timeframe (Some t1) c) →
  window_in_range self (with_timeframe (Some t2) c) →
  ∃ s1 s2,
    _users_meeting_condition self (with_timeframe (Some t1) c) = Ok s1
    ∧ _users_meeting_condition self (with_timeframe (Some t2) c) = Ok s2
    ∧ s1 ⊆ s2.
Proof. apply count_window_mono. Qed.

Lemma wider_window_keeps_counted_users_witness :
  ∃ s1 s2,
    _users_meeting_condition cart_system (with_timeframe (Some 1%Z) cart_any) = Ok s1
    ∧ _users_meeting_condition cart_system (with_timeframe (Some 7%Z) cart_any) = Ok s2
    ∧ s1 ⊆ s2.
Proof.
  apply (wider_window_keeps_counted_users cart_system cart_any 1 7).
  - reflexivity.
  - left. reflexivity.
  - lia.
  - vm_compute. split; split; discriminate.
  - vm_compute. split; split; discriminate.
Defined.

Lemma cond_set_loop_body self cur c :
  loop_body self (universe_of self) (Some cur) c =
  (cu ←! cond_set self c;
   Ok (Some (if decide (joins_by_union c) then cur ∪ cu else cur ∩ cu))).
Proof.
  rewrite loop_body_Some. unfold cond_set.
  by destruct (_users_meeting_condition self c).
Qed.

Lemma for_loop_conjunctive self cur cs acc :
  Forall (λ c, ¬ joins_by_union c) cs →
  for_loop self (universe_of self) (Some cur) cs = Ok acc →
  ∃ s, acc = Some s
    ∧ ∀ u, u ∈ s ↔
        u ∈ cur ∧ Forall (λ c, ∃ cu, cond_set self c = Ok cu ∧ u ∈ cu) cs.
Proof.
  intros Hcs. revert cur. induction Hcs as [|c cs Hc _ IH]; intros cur.
  - simpl. intros [= <-]. exists cur. split; [done|]. intros u.
    split; [by split|tauto].
  - simpl. rewrite cond_set_loop_body.
    destruct (cond_set self c) as [cu|] eqn:Hcu; simpl; [|done].
    rewrite decide_False by done. intros (s & -> & Hs)%IH.
    exists s. split; [done|]. intros u.
    rewrite Hs, elem_of_intersection, Forall_cons. split.
    + intros [[? ?] ?]. eauto 6.
    + intros [? [(cu' & Hcu' & ?) ?]].
      assert (cu' = cu) as -> by congruence. done.
Qed.

Lemma for_loop_first self c cs :
  for_loop self (universe_of self) None (c :: cs) =
  (cu ←! cond_set self c; for_loop self (universe_of self) (Some cu) cs).
Proof.
  simpl. unfold loop_body, cond_set.
  by destruct (_users_meeting_condition self c).
Qed.

Lemma conjunctive_cohort_is_intersection_aux ls self co r :
  enumerates ls →
  Forall (λ c, ¬ joins_by_union c) (default [] (Cohort.conditions co)) →
  default [] (Cohort.conditions co) ≠ [] →
  execute_cohort ls self co = Ok r →
  ∀ u, u ∈ r ↔
    Forall (λ c, ∃ cu, cond_set self c = Ok cu ∧ u ∈ cu)
           (default [] (Cohort.conditions co)).
Proof.
  intros Hls Hconj Hne Hr u.
  apply execute_cohort_Ok_inv in Hr as [[? _]|(s & Hl & ->)]; [done|].
  destruct (default [] (Cohort.conditions co)) as [|c cs]; [done|].
  apply Forall_cons in Hconj as [_ Hconj].
  rewrite for_loop_first in Hl.
  destruct (cond_set self c) as [cu|] eqn:Hcu; simpl in Hl; [|done].
  apply for_loop_conjunctive in Hl as (s' & [= <-] & Hs); [|done].
  rewrite sorted_Permutation, (Hls s), elem_of_elements, Hs, Forall_cons.
  split.
  - intros [? ?]. eauto.
  - intros [(cu' & Hcu' & ?) ?].
    assert (cu' = cu) as -> by congruence. done.
Qed.

(** X8. When no condition of a cohort is joined by union, the users that
    [execute_cohort] returns are exactly the users that belong to the set
    of every condition (the raw matches of an included condition, the
    complement of the raw matches of an excluded one). *)
Theorem conjunctive_cohort_is_intersection ls self co r :
  enumerates ls →
  Forall (λ c, ¬ joins_by_union c) (default [] (Cohort.conditions co)) →
  default [] (Cohort.conditions co) ≠ [] →
  execute_cohort ls self co = Ok r →
  ∀ u, u ∈ r ↔
    Forall (λ c, ∃ cu, cond_set self c = Ok cu ∧ u ∈ cu)
           (default [] (Cohort.conditions co)).
Proof. apply conjunctive_cohort_is_intersection_aux. Qed.

Lemma conjunctive_cohort_is_intersection_witness :
  "A" ∈ ["A"] ↔
    Forall (λ c, ∃ cu, cond_set cart_system c = Ok cu ∧ "A" ∈ cu)
           [cart_sum_ge_3000; no_payment].
Proof.
  apply (conjunctive_cohort_is_intersection elements cart_system
           (sample_cohort 1 [cart_sum_ge_3000; no_payment] (Some true)) ["A"]).
  - intros s. reflexivity.
  - repeat constructor; compute_done.
  - discriminate.
  - reflexivity.
Defined.

Lemma Forall_Permutation_aux {A} (P : A → Prop) (l1 l2 : list A) :
  l1 ≡ₚ l2 → Forall P l1 → Forall P l2.
Proof. intros Hp. by rewrite Hp. Qed.

(** X9. The order of the conditions of a cohort none of which is joined by
    union does not matter: after any reordering of the conditions the
    evaluation raises if and only if it raised before, and returns the
    same sequence otherwise. *)
Theorem conjunctive_cohort_order_irrelevant ls self co cs' :
  enumerates ls →
  Forall (λ c, ¬ joins_by_union c) (default [] (Cohort.conditions co)) →
  default [] (Cohort.conditions co) ≡ₚ cs' →
  match execute_cohort ls self co,
        execute_cohort ls self (with_conditions cs' co) with
  | Ok r1, Ok r2 => r1 = r2
  | Raise _, Raise _ => True
  | _, _ => False
  end.
Proof.
  intros Hls Hconj Hperm.
  pose proof (execute_cohort_is_Ok_iff ls self co) as Hok1.
  pose proof (execute_cohort_is_Ok_iff ls self (with_conditions cs' co)) as Hok2.
  simpl in Hok2.
  assert (Forall (λ c, is_Ok (_users_meeting_condition self c))
                 (default [] (Cohort.conditions co))
          ↔ Forall (λ c, is_Ok (_users_meeting_condition self c)) cs') as Hall.
  { by rewrite Hperm. }
  destruct (execute_cohort ls self co) as [r1|e1] eqn:H1;
    destruct (execute_cohort ls self (with_conditions cs' co)) as [r2|e2] eqn:H2;
    simpl in *; try tauto.
  destruct (decide (default [] (Cohort.conditions co) = [])) as [Hnil|Hne].
  { rewrite Hnil in Hperm. apply Permutation_nil_l in Hperm as <-.
    unfold execute_cohort in H1, H2. simpl in H2. rewrite Hnil in H1.
    congruence. }
  assert (cs' ≠ []) as Hne'.
  { intros ->. by apply Permutation_nil_r in Hperm. }
  assert (StronglySorted String.le r1 ∧ NoDup r1) as [Hs1 Hd1].
  { destruct (execute_cohort_sorted_skeleton ls self co r1 Hls H1); done. }
  assert (StronglySorted String.le r2 ∧ NoDup r2) as [Hs2 Hd2].
  { destruct (execute_cohort_sorted_skeleton ls self _ r2 Hls H2); done. }
  apply (Sorted_unique String.le);
    [by apply StronglySorted_Sorted|by apply StronglySorted_Sorted|].
  apply NoDup_Permutation; [done|done|]. intros u.
  rewrite (conjunctive_cohort_is_intersection_aux ls self co r1 Hls Hconj Hne H1).
  rewrite (conjunctive_cohort_is_intersection_aux ls self
             (with_conditions cs' co) r2 Hls); simpl; [| |done|done].
  - by rewrite Hperm.
  - eapply Forall_Permutation_aux; eassumption.
Qed.

Lemma conjunctive_cohort_order_irrelevant_witness :
  match execute_cohort elements cart_system
          (sample_cohort 1 [cart_sum_ge_3000; no_payment] (Some true)),
        execute_cohort elements cart_system
          (with_conditions [no_payment; cart_sum_ge_3000]
             (sample_cohort 1 [cart_sum_ge_3000; no_payment] (Some true)))
  with
  | Ok r1, Ok r2 => r1 = r2
  | Raise _, Raise _ => True
  | _, _ => False
  end.
Proof.
  apply (conjunctive_cohort_order_irrelevant elements cart_system
           (sample_cohort 1 [cart_sum_ge_3000; no_payment] (Some true))
           [no_payment; cart_sum_ge_3000]).
  - intros s. reflexivity.
  - repeat constructor; compute_done.
  - simpl. apply perm_swap.
Defined.

(** ** The registry *)

Lemma users_meeting_condition_set_cohorts cs self c :
  _users_meeting_condition (set_cohorts cs self) c
  = _users_meeting_condition self c.
Proof. reflexivity. Qed.

Lemma for_loop_set_cohorts cs self U current_set conds :
  for_loop (set_cohorts cs self) U current_set conds
  = for_loop self U current_set conds.
Proof.
  revert current_set. induction conds as [|c conds IH]; intros current_set; [done|].
  simpl. unfold loop_body. rewrite users_meeting_condition_set_cohorts.
  destruct (_users_meeting_condition self c) as [met|]; simpl; [|done].
  destruct current_set; repeat case_decide; simpl; apply IH.
Qed.

Lemma execute_cohort_set_cohorts ls cs self co :
  execute_cohort ls (set_cohorts cs self) co = execute_cohort ls self co.
Proof.
  unfold execute_cohort.
  destruct (default [] (Cohort.conditions co)) as [|c conds]; [done|].
  change (universe_of (set_cohorts cs self)) with (universe_of self).
  by rewrite for_loop_set_cohorts.
Qed.

Lemma lookup_app_found cohort_id (l1 l2 : list Cohort.t) c :
  c ∈ l1 → Cohort.id c = cohort_id →
  head (filter (λ c, Cohort.id c = cohort_id) (l1 ++ l2))
  = head (filter (λ c, Cohort.id c = cohort_id) l1).
Proof.
  intros Hc Hid. rewrite filter_app.
  destruct (filter (λ c0, Cohort.id c0 = cohort_id) l1) as [|c' l] eqn:Hf; [|done].
  assert (c ∈ filter (λ c0, Cohort.id c0 = cohort_id) l1) as Hin.
  { by apply list_elem_of_filter. }
  rewrite Hf in Hin. by apply elem_of_nil in Hin.
Qed.

Lemma lookup_app_fresh cohort_id (l1 l2 : list Cohort.t) :
  (∀ c, c ∈ l1 → Cohort.id c ≠ cohort_id) →
  head (filter (λ c, Cohort.id c = cohort_id) (l1 ++ l2))
  = head (filter (λ c, Cohort.id c = cohort_id) l2).
Proof.
  intros Hno. rewrite filter_app.
  destruct (filter (λ c0, Cohort.id c0 = cohort_id) l1) as [|c' l] eqn:Hf; [done|].
  assert (c' ∈ filter (λ c0, Cohort.id c0 = cohort_id) l1) as Hin.
  { rewrite Hf. apply list_elem_of_here. }
  apply list_elem_of_filter in Hin as [Hid Hin]. by apply Hno in Hin.
Qed.

(** X10. A cohort made by [create_cohort] can be looked up at once when its
    id is new: if no cohort of the registry has the id length + 1, then
    [get_cohort_users] on the id of the created cohort evaluates the
    created cohort. *)
Theorem created_cohort_is_found strftime ls self name description conditions :
  (∀ c, c ∈ cohorts self →
        Cohort.id c ≠ (Z.of_nat (length (cohorts self)) + 1)%Z) →
  let created := create_cohort strftime self name description conditions in
  Cohort.conditions created.1 = Some conditions
  ∧ get_cohort_users ls created.2 (Cohort.id created.1)
    = execute_cohort ls self created.1.
Proof.
  intros Hfresh created. split; [done|].
  unfold get_cohort_users. simpl.
  rewrite lookup_app_fresh by done.
  rewrite filter_cons, decide_True by done. simpl.
  apply execute_cohort_set_cohorts.
Qed.

Lemma created_cohort_is_found_witness :
  let created := create_cohort fixed_date cart_registry "Cart Users"
                   "Users who added items to cart" [cart_any] in
  Cohort.conditions created.1 = Some [cart_any]
  ∧ get_cohort_users elements created.2 (Cohort.id created.1)
    = execute_cohort elements cart_registry created.1.
Proof.
  apply (created_cohort_is_found fixed_date elements cart_registry).
  intros c Hc. simpl in Hc.
  apply elem_of_cons in Hc as [->|Hc]; [discriminate|].
  apply elem_of_cons in Hc as [->|Hc]; [discriminate|].
  by apply elem_of_nil in Hc.
Defined.

(** X11. [create_cohort] does not change what is found under the ids
    already in the registry: for such an id [get_cohort_users] returns
    the same before and after.  In particular, when the id length + 1 is
    already taken, looking up the id of the created cohort evaluates the
    older cohort, not the created one. *)
Theorem create_cohort_keeps_lookups strftime ls self name description
    conditions cohort_id c :
  c ∈ cohorts self →
  Cohort.id c = cohort_id →
  let created := create_cohort strftime self name description conditions in
  get_cohort_users ls created.2 cohort_id = get_cohort_users ls self cohort_id
  ∧ (cohort_id = Cohort.id created.1 →
     get_cohort_users ls created.2 (Cohort.id created.1)
     = get_cohort_users ls self cohort_id).
Proof.
  intros Hc Hid created.
  assert (get_cohort_users ls created.2 cohort_id
          = get_cohort_users ls self cohort_id) as Heq.
  { unfold get_cohort_users. simpl.
    rewrite (lookup_app_found cohort_id _ _ c Hc Hid).
    destruct (head _) as [c'|]; [|done].
    destruct (negb _); [done|]. apply execute_cohort_set_cohorts. }
  split; [done|]. by intros <-.
Qed.

Lemma create_cohort_keeps_lookups_witness :
  let created := create_cohort fixed_date shadowed_registry "Cart Users"
                   "Users who added items to cart" [cart_any] in
  get_cohort_users elements created.2 2 = get_cohort_users elements shadowed_registry 2
  ∧ (2%Z = Cohort.id created.1 →
     get_cohort_users elements created.2 (Cohort.id created.1)
     = get_cohort_users elements shadowed_registry 2).
Proof.
  apply (create_cohort_keeps_lookups fixed_date elements shadowed_registry
           "Cart Users" "Users who added items to cart" [cart_any] 2
           (sample_cohort 2 [cart_any] (Some false))).
  - simpl. apply list_elem_of_here.
  - reflexivity.
Defined.

Lemma ids_sequential_create strftime self name description conditions :
  ids_sequential self →
  ids_sequential (create_cohort strftime self name description conditions).2.
Proof.
  unfold ids_sequential. simpl. intros Hseq.
  rewrite fmap_app, length_app, Hseq. simpl.
  rewrite Nat.add_1_r, seq_S, fmap_app. simpl. done.
Qed.

Lemma ids_sequential_create_cohorts strftime specs self :
  ids_sequential self → ids_sequential (create_cohorts strftime specs self).
Proof.
  unfold create_cohorts. revert self.
  induction specs as [|spec specs IH]; intros self Hseq; [done|].
  simpl. apply IH. by apply ids_sequential_create.
Qed.

Lemma ids_sequential_NoDup self :
  ids_sequential self → NoDup (Cohort.id <$> cohorts self).
Proof.
  unfold ids_sequential. intros ->.
  apply NoDup_fmap_2; [|apply NoDup_seq].
  intros i j. lia.
Qed.

Lemma ids_sequential_initialize strftime self :
  ids_sequential (initialize_sample_cohorts strftime self).
Proof. reflexivity. Qed.

Lemma length_create_cohorts strftime specs self :
  length (cohorts (create_cohorts strftime specs self))
  = length (cohorts self) + length specs.
Proof.
  unfold create_cohorts. revert self.
  induction specs as [|spec specs IH]; intros self; simpl; [lia|].
  rewrite IH. simpl. rewrite length_app. simpl. lia.
Qed.

(** X12. After [initialize_sample_cohorts] and any sequence of
    [create_cohort] calls, the ids of the registry are 1, 2, ..., n in
    registry order; they are pairwise distinct, and the id given to the
    next cohort is not in use. *)
Theorem registry_ids_stay_unique strftime specs self :
  let self' := create_cohorts strftime specs
                 (initialize_sample_cohorts strftime self) in
  Cohort.id <$> cohorts self'
  = (λ i, Z.of_nat i + 1)%Z <$> seq 0 (6 + length specs)
  ∧ NoDup (Cohort.id <$> cohorts self')
  ∧ ∀ c, c ∈ cohorts self' →
         Cohort.id c ≠ (Z.of_nat (length (cohorts self')) + 1)%Z.
Proof.
  intros self'.
  assert (ids_sequential self') as Hseq.
  { apply ids_sequential_create_cohorts, ids_sequential_initialize. }
  assert (length (cohorts self') = 6 + length specs) as Hlen.
  { unfold self'. by rewrite length_create_cohorts. }
  split; [|split].
  - unfold ids_sequential in Hseq. by rewrite Hlen in Hseq.
  - by apply ids_sequential_NoDup.
  - intros c Hc Hid.
    assert (Cohort.id c ∈ Cohort.id <$> cohorts self') as Hin.
    { apply list_elem_of_fmap. eauto. }
    rewrite Hseq in Hin.
    apply list_elem_of_fmap in Hin as (i & Hi & Hseqi).
    apply elem_of_seq in Hseqi. lia.
Qed.

(** ** Reporting *)

Lemma analyze_loop_Ok_inv ls self results cs rows :
  analyze_loop ls self results cs = Ok rows →
  ∃ rows', rows = results ++ rows'
    ∧ Forall2 (reported_by (execute_cohort ls self))
        (filter (λ co, default false (Cohort.active co) = true) cs) rows'.
Proof.
  revert results. induction cs as [|co cs IH]; intros results.
  - simpl. intros [= <-]. exists []. split; [by rewrite app_nil_r|constructor].
  - simpl. rewrite filter_cons.
    destruct (default false (Cohort.active co)) eqn:Hact.
    + rewrite decide_True by done.
      destruct (execute_cohort ls self co) as [users|] eqn:Hu; simpl; [|done].
      intros (rows' & -> & Hrows)%IH.
      exists (summary_row co users :: rows'). split; [by rewrite <- app_assoc|].
      constructor; [|done]. exists users. done.
    + rewrite decide_False by done. apply IH.
Qed.

Lemma analyze_loop_is_Ok ls self results cs :
  is_Ok (analyze_loop ls self results cs) ↔
  Forall (λ co, is_Ok (execute_cohort ls self co))
         (filter (λ co, default false (Cohort.active co) = true) cs).
Proof.
  revert results. induction cs as [|co cs IH]; intros results; [done|].
  simpl. rewrite filter_cons.
  destruct (default false (Cohort.active co)) eqn:Hact.
  - rewrite decide_True by done. rewrite Forall_cons.
    destruct (execute_cohort ls self co) as [users|]; simpl.
    + rewrite IH. tauto.
    + tauto.
  - rewrite decide_False by done. apply IH.
Qed.

(** X13. When [analyze_cohorts] returns, its rows are, in registry order,
    the rows of the active cohorts: each carries the id, name,
    description and creation date of its cohort, the number of its
    conditions, and the number of users [execute_cohort] returns for it,
    which never exceeds the number of distinct users of the snapshot. *)
Theorem analyze_cohorts_rows ls self rows :
  enumerates ls →
  analyze_cohorts ls self = Ok rows →
  Forall2 (reported_by (execute_cohort ls self))
    (filter (λ co, default false (Cohort.active co) = true) (cohorts self)) rows
  ∧ SummaryRow.cohort_id <$> rows
    = Cohort.id <$> filter (λ co, default false (Cohort.active co) = true)
                           (cohorts self)
  ∧ Forall (λ row, SummaryRow.user_count row ≤ size (universe_of self)) rows.
Proof.
  intros Hls Hrows. unfold analyze_cohorts in Hrows.
  apply analyze_loop_Ok_inv in Hrows as (rows' & -> & Hrows). simpl.
  split; [done|].
  split.
  - induction Hrows as [|co row cs rows (users & Hu & ->) _ IH]; [done|].
    rewrite !fmap_cons. by f_equal.
  - induction Hrows as [|co row cs rows (users & Hu & ->) _ IH]; [done|].
    constructor; [|done]. simpl.
    apply execute_cohort_Ok_inv in Hu as [[_ ->]|(s & Hl & ->)]; [simpl; lia|].
    apply for_loop_universe in Hl; [|done].
    rewrite sorted_Permutation, (Hls s). apply (subseteq_size s), Hl.
Qed.

Lemma analyze_cohorts_rows_witness :
  Forall2 (reported_by (execute_cohort elements cart_registry))
    (filter (λ co, default false (Cohort.active co) = true) (cohorts cart_registry))
    [summary_row (sample_cohort 1 [cart_sum_ge_3000; no_payment] (Some true)) ["A"]]
  ∧ SummaryRow.cohort_id
      <$> [summary_row (sample_cohort 1 [cart_sum_ge_3000; no_payment] (Some true)) ["A"]]
    = Cohort.id <$> filter (λ co, default false (Cohort.active co) = true)
                           (cohorts cart_registry)
  ∧ Forall (λ row, SummaryRow.user_count row ≤ size (universe_of cart_registry))
      [summary_row (sample_cohort 1 [cart_sum_ge_3000; no_payment] (Some true)) ["A"]].
Proof.
  apply (analyze_cohorts_rows elements cart_registry).
  - intros s. reflexivity.
  - reflexivity.
Defined.

(** X14. [analyze_cohorts] raises exactly when the evaluation of an active
    cohort raises: a cohort that is not active is never evaluated, so a
    condition of it that would raise does no harm. *)
Theorem analyze_cohorts_raises_iff ls self :
  is_Ok (analyze_cohorts ls self) ↔
  ∀ co, co ∈ cohorts self → default false (Cohort.active co) = true →
        is_Ok (execute_cohort ls self co).
Proof.
  unfold analyze_cohorts. rewrite analyze_loop_is_Ok, Forall_forall.
  split.
  - intros H co Hco Hact. apply H. by apply list_elem_of_filter.
  - intros H co [Hact Hco]%list_elem_of_filter. by apply H.
Qed.





Lemma export_summary_loop_Ok_inv ls self results cs rows :
  export_summary_loop ls self results cs = Ok rows →
  ∃ rows', rows = results ++ rows'
    ∧ Forall2 (reported_by (λ co, get_cohort_users ls self (Cohort.id co)))
        (filter (λ co, default false (Cohort.active co) = true) cs) rows'.
Proof.
  revert results. induction cs as [|co cs IH]; intros results.
  - simpl. intros [= <-]. exists []. split; [by rewrite app_nil_r|constructor].
  - simpl. rewrite filter_cons.
    destruct (default false (Cohort.active co)) eqn:Hact.
    + rewrite decide_True by done. cbn [negb].
      destruct (get_cohort_users ls self (Cohort.id co)) as [users|] eqn:Hu;
        simpl; [|done].
      intros (rows' & -> & Hrows)%IH.
      exists (summary_row co users :: rows'). split; [by rewrite <- app_assoc|].
      constructor; [|done]. exists users. done.
    + rewrite decide_False by done. cbn [negb]. apply IH.
Qed.

(** X16. The export looks the users of a cohort up by its id: each summary
    row it collects belongs to an active cohort, in registry order, and
    counts the users of the first cohort of the registry with the same
    id.  An active cohort that comes after a cohort with the same id that
    is not active is therefore reported with 0 users. *)
Theorem export_summary_counts_by_id ls self rows :
  export_summary_rows ls self = Ok rows →
  Forall2 (reported_by (λ co, get_cohort_users ls self (Cohort.id co)))
    (filter (λ co, default false (Cohort.active co) = true) (cohorts self)) rows
  ∧ Forall2 (λ co row,
       ∀ first, registered self (Cohort.id co) first →
                Cohort.active first ≠ Some true →
                SummaryRow.user_count row = 0)
    (filter (λ co, default false (Cohort.active co) = true) (cohorts self)) rows.
Proof.
  unfold export_summary_rows.
  intros (rows' & -> & Hrows)%export_summary_loop_Ok_inv. simpl.
  split; [done|].
  eapply Forall2_impl; [exact Hrows|].
  intros co row (users & Hu & ->) first Hfirst Hact. simpl.
  unfold get_cohort_users in Hu.
  rewrite (registered_head_filter _ _ _ Hfirst) in Hu.
  destruct (Cohort.active first) as [[]|]; simpl in Hu; [done| |];
    by injection Hu as <-.
Qed.

Lemma export_summary_counts_by_id_witness :
  Forall2 (reported_by (λ co, get_cohort_users elements shadowed_registry (Cohort.id co)))
    (filter (λ co, default false (Cohort.active co) = true)
            (cohorts shadowed_registry))
    [summary_row (sample_cohort 2 [cart_any] (Some true)) []]
  ∧ Forall2 (λ co row,
       ∀ first, registered shadowed_registry (Cohort.id co) first →
                Cohort.active first ≠ Some true →
                SummaryRow.user_count row = 0)
    (filter (λ co, default false (Cohort.active co) = true)
            (cohorts shadowed_registry))
    [summary_row (sample_cohort 2 [cart_any] (Some true)) []].
Proof.
  apply (export_summary_counts_by_id elements shadowed_registry). reflexivity.
Defined.

(** ** Sheet names *)

Lemma underscore_valid : underscore ∉ invalid_chars.
Proof. compute_done. Qed.

Lemma safe_char_valid (c : N) :
  (if decide (c ∈ invalid_chars) then underscore else c) ∉ invalid_chars.
Proof. case_decide; [apply underscore_valid|done]. Qed.

Lemma safe_chars_id (name : codepoints) :
  Forall (λ c, c ∉ invalid_chars) name →
  (λ c, if decide (c ∈ invalid_chars) then underscore else c) <$> name = name.
Proof.
  induction 1 as [|c name Hc _ IH]; [done|].
  rewrite fmap_cons, IH. by rewrite decide_False.
Qed.

Lemma safe_sheet_name_valid_aux (name : codepoints) :
  length (_safe_sheet_name name) = min 31 (length name)
  ∧ Forall (λ c, c ∉ invalid_chars) (_safe_sheet_name name).
Proof.
  unfold _safe_sheet_name. split.
  - rewrite length_take, length_fmap. done.
  - apply Forall_take, Forall_fmap, Forall_forall. intros c _. simpl.
    apply safe_char_valid.
Qed.

(** X17. A sheet name made by [_safe_sheet_name] has the length of the
    given name cut at 31 characters, holds none of the characters
    \ / * ? : [ ], and agrees with the given name at each of the first 31
    positions, an underscore standing for each of those characters. *)
Theorem safe_sheet_name_valid (name : codepoints) :
  length (_safe_sheet_name name) = min 31 (length name)
  ∧ Forall (λ c, c ∉ invalid_chars) (_safe_sheet_name name)
  ∧ ∀ i, _safe_sheet_name name !! i =
         if decide (i < 31)
         then (λ c, if decide (c ∈ invalid_chars) then underscore else c)
                <$> name !! i
         else None.
Proof.
  destruct (safe_sheet_name_valid_aux name) as [Hlen Hvalid].
  split; [done|]. split; [done|]. unfold _safe_sheet_name. cbv zeta.
  intros i. rewrite lookup_take, list_lookup_fmap. done.
Qed.

(** X18. [_safe_sheet_name] leaves a name unchanged exactly when the name
    has at most 31 characters and none of \ / * ? : [ ]; applying it a
    second time changes nothing. *)
Theorem safe_sheet_name_fixed_points (name : codepoints) :
  (_safe_sheet_name name = name ↔
   length name ≤ 31 ∧ Forall (λ c, c ∉ invalid_chars) name)
  ∧ _safe_sheet_name (_safe_sheet_name name) = _safe_sheet_name name.
Proof.
  assert (∀ n : codepoints,
            length n ≤ 31 → Forall (λ c, c ∉ invalid_chars) n →
            _safe_sheet_name n = n) as Hfix.
  { intros n Hlen Hvalid. unfold _safe_sheet_name.
    rewrite safe_chars_id by done. by apply take_ge. }
  split.
  - split.
    + intros Heq.
      destruct (safe_sheet_name_valid_aux name) as (Hlen & Hvalid).
      rewrite Heq in Hlen, Hvalid. split; [lia|done].
    + intros [? ?]. by apply Hfix.
  - destruct (safe_sheet_name_valid_aux name) as (Hlen & Hvalid).
    apply Hfix; [lia|done].
Qed.

(** ** The sample cohorts *)

Lemma ge_value_mono self c1 c2 f s1 :
  aggregate_of (Condition.operation c1) (default "" (Condition.property c1)) = Ok f →
  aggregate_of (Condition.operation c2) (default "" (Condition.property c2)) = Ok f →
  Condition.condition c1 = ">=" → Condition.condition c2 = ">=" →
  filtered_events self c1 = filtered_events self c2 →
  (Condition.value c2 <= Condition.value c1)%Q →
  _users_meeting_condition self c1 = Ok s1 →
  ∃ s2, _users_meeting_condition self c2 = Ok s2 ∧ s1 ⊆ s2.
Proof.
  intros Hf1 Hf2 Hc1 Hc2 Hfe Hv Hs1.
  destruct (users_meeting_condition_Ok_inv self c1 s1 Hs1) as (rows & Hrows & _).
  destruct (users_meeting_condition_spec self c1 rows f Hrows Hf1)
    as (s1' & Hs1' & H1).
  assert (s1' = s1) as -> by congruence.
  rewrite Hfe in Hrows.
  destruct (users_meeting_condition_spec self c2 rows f Hrows Hf2)
    as (s2 & Hs2 & H2).
  exists s2. split; [done|].
  intros u. rewrite H1, H2, Hc1, Hc2. intros [Hr Hs]. split; [done|].
  apply satisfies_ge, Qle_bool_iff in Hs.
  apply satisfies_ge, Qle_bool_iff. eapply Qle_trans; eassumption.
Qed.

Lemma stronger_included self c1 c2 :
  Condition.include c1 = Some true → Condition.include c2 = Some true →
  (∀ s1, _users_meeting_condition self c1 = Ok s1 →
         ∃ s2, _users_meeting_condition self c2 = Ok s2 ∧ s1 ⊆ s2) →
  stronger self c1 c2.
Proof.
  intros Hi1 Hi2 Hsub cu1 u. unfold cond_set, cond_users_of.
  rewrite Hi1, Hi2.
  destruct (_users_meeting_condition self c1) as [s1|] eqn:H1; [|done].
  destruct (Hsub s1 eq_refl) as (s2 & -> & Hs). simpl.
  intros [= <-] Hu. eauto.
Qed.

Lemma stronger_same_window self a op p (v1 v2 : Q) t l1 l2 f :
  aggregate_of op p = Ok f →
  (v2 <= v1)%Q →
  stronger self (sample_condition true a op p v1 t l1)
                (sample_condition true a op p v2 t l2).
Proof.
  intros Hf Hv. apply stronger_included; [done|done|].
  intros s1.
  by apply (ge_value_mono self (sample_condition true a op p v1 t l1)
              (sample_condition true a op p v2 t l2) f).
Qed.

Lemma stronger_wider_count self a p (v : Q) (t1 t2 : Z) l1 l2 :
  (t1 ≤ t2)%Z →
  window_in_range self (sample_condition true a "count" p v t2 l2) →
  stronger self (sample_condition true a "count" p v t1 l1)
                (sample_condition true a "count" p v t2 l2).
Proof.
  intros Ht Hw2. apply stronger_included; [done|done|].
  intros s1 Hs1.
  destruct (users_meeting_condition_Ok_inv _ _ _ Hs1)
    as (rows & [Hw1 _]%filtered_events_Ok & _).
  destruct (count_window_mono self (sample_condition true a "count" p v t1 l1)
              t1 t2) as (s1' & s2 & H1 & H2 & Hsub);
    [done|by left|done|exact Hw1|exact Hw2|].
  change (with_timeframe (Some t1) (sample_condition true a "count" p v t1 l1))
    with (sample_condition true a "count" p v t1 l1) in H1.
  change (with_timeframe (Some t2) (sample_condition true a "count" p v t1 l1))
    with (sample_condition true a "count" p v t2 l1) in H2.
  assert (s1' = s1) as -> by congruence.
  exists s2. split; [|done]. rewrite <- H2. reflexivity.
Qed.

Lemma stronger_Forall2 self (cs1 cs2 : list Condition.t) u :
  Forall2 (stronger self) cs1 cs2 →
  Forall (λ c, ∃ cu, cond_set self c = Ok cu ∧ u ∈ cu) cs1 →
  Forall (λ c, ∃ cu, cond_set self c = Ok cu ∧ u ∈ cu) cs2.
Proof.
  induction 1 as [|c1 c2 cs1 cs2 Hc _ IH]; [done|].
  intros [(cu1 & H1 & Hu) Hrest]%Forall_cons.
  constructor; [by eapply Hc|by apply IH].
Qed.

Lemma tier_included ls self co1 co2 cs1 cs2 :
  enumerates ls →
  Cohort.conditions co1 = Some cs1 → Cohort.conditions co2 = Some cs2 →
  cs1 ≠ [] → cs2 ≠ [] →
  Forall (λ c, ¬ joins_by_union c) cs1 →
  Forall (λ c, ¬ joins_by_union c) cs2 →
  Forall (evaluates self) cs2 →
  Forall2 (stronger self) cs1 cs2 →
  ∀ r1, execute_cohort ls self co1 = Ok r1 →
  ∃ r2, execute_cohort ls self co2 = Ok r2 ∧ ∀ u, u ∈ r1 → u ∈ r2.
Proof.
  intros Hls Hc1 Hc2 Hne1 Hne2 Hj1 Hj2 Hsafe Hstr r1 Hr1.
  destruct (execute_cohort_evaluated ls self co2) as [r2 Hr2].
  { by rewrite Hc2. }
  exists r2. split; [done|]. intros u.
  rewrite (conjunctive_cohort_is_intersection_aux ls self co1 r1 Hls);
    rewrite ?Hc1; try done.
  rewrite (conjunctive_cohort_is_intersection_aux ls self co2 r2 Hls);
    rewrite ?Hc2; try done.
  simpl. by apply stronger_Forall2.
Qed.


Local Ltac find_cohort :=
  unfold get_cohort_users, initialize_sample_cohorts;
  cbn [cohorts set_cohorts app];
  rewrite !filter_cons; cbn [Cohort.id system_cohort];
  repeat (rewrite decide_False by discriminate);
  rewrite decide_True by done;
  cbn [head Cohort.active system_cohort default negb];
  apply execute_cohort_set_cohorts.

Lemma now_after_window self incl a op p v t l :
  now_after 365 self → (0 ≤ t ≤ 365)%Z →
  window_in_range self (sample_condition incl a op p v t l).
Proof.
  unfold now_after, window_in_range, datetime_min, datetime_max,
    microseconds_per_day. simpl. lia.
Qed.

Lemma sample_condition_evaluates self incl a op p v t l :
  now_after 365 self → (0 ≤ t ≤ 365)%Z → op ≠ "distinct_count" →
  evaluates self (sample_condition incl a op p v t l).
Proof.
  intros Hnow Ht Hop. apply evaluates_in_range; [|done].
  by apply now_after_window.
Qed.

Local Ltac sample_conditions_evaluate :=
  repeat (apply Forall_cons; split;
          [apply sample_condition_evaluates; [done|lia|discriminate]|]);
  apply Forall_nil_2.

Lemma platinum_evaluates self :
  now_after 365 self → Forall (evaluates self) platinum.
Proof. intros Hnow. unfold platinum. sample_conditions_evaluate. Qed.

Lemma gold_evaluates self :
  now_after 365 self → Forall (evaluates self) gold.
Proof. intros Hnow. unfold gold. sample_conditions_evaluate. Qed.

Lemma silver_evaluates self :
  now_after 365 self → Forall (evaluates self) silver.
Proof. intros Hnow. unfold silver. sample_conditions_evaluate. Qed.

Lemma sample_condition_conjunctive incl a op p v t l :
  l = None ∨ l = Some "AND" →
  ¬ joins_by_union (sample_condition incl a op p v t l).
Proof. intros [->| ->]; compute_done. Qed.

Lemma platinum_conjunctive : Forall (λ c, ¬ joins_by_union c) platinum.
Proof.
  unfold platinum.
  repeat (apply Forall_cons; split; [apply sample_condition_conjunctive; auto|]).
  apply Forall_nil_2.
Qed.
Lemma gold_conjunctive : Forall (λ c, ¬ joins_by_union c) gold.
Proof.
  unfold gold.
  repeat (apply Forall_cons; split; [apply sample_condition_conjunctive; auto|]).
  apply Forall_nil_2.
Qed.
Lemma silver_conjunctive : Forall (λ c, ¬ joins_by_union c) silver.
Proof.
  unfold silver.
  repeat (apply Forall_cons; split; [apply sample_condition_conjunctive; auto|]).
  apply Forall_nil_2.
Qed.

Lemma Qle_of_Z (a b : Z) : (a ≤ b)%Z → (inject_Z a <= inject_Z b)%Q.
Proof. intros H. by rewrite <- Zle_Qle. Qed.

Local Ltac next_pair := apply Forall2_cons; split.

Lemma platinum_gold self :
  now_after 365 self → Forall2 (stronger self) platinum gold.
Proof.
  intros Hnow. unfold platinum, gold.
  next_pair; [|next_pair; [|next_pair; [|next_pair; [|apply Forall2_nil_2]]]].
  - eapply stronger_same_window; [reflexivity|]. apply (Qle_of_Z 7000 15000). lia.
  - eapply stronger_same_window; [reflexivity|]. apply (Qle_of_Z 3 5). lia.
  - eapply stronger_same_window; [reflexivity|]. apply (Qle_of_Z 1000 2000). lia.
  - apply stronger_wider_count; [lia|]. by apply now_after_window.
Qed.

Lemma gold_silver self :
  now_after 365 self → Forall2 (stronger self) gold silver.
Proof.
  intros Hnow. unfold gold, silver.
  next_pair; [|next_pair; [|next_pair; [|next_pair; [|apply Forall2_nil_2]]]].
  - eapply stronger_same_window; [reflexivity|]. apply (Qle_of_Z 2000 7000). lia.
  - eapply stronger_same_window; [reflexivity|]. apply (Qle_of_Z 1 3). lia.
  - eapply stronger_same_window; [reflexivity|]. apply (Qle_of_Z 500 1000). lia.
  - apply stronger_wider_count; [lia|]. by apply now_after_window.
Qed.

(** X19. The premium tiers of [initialize_sample_cohorts] are nested on
    every snapshot whose [now] is a [datetime] at least 365 days after
    [datetime.min]: the lookups of the cohorts 4 (Platinum), 5 (Gold) and
    6 (Silver) all return, every Platinum user is a Gold user, and every
    Gold user is a Silver user. *)
Theorem premium_tiers_nested strftime ls self :
  enumerates ls →
  now_after 365 self →
  let registry := initialize_sample_cohorts strftime self in
  ∃ p g s,
    get_cohort_users ls registry 4 = Ok p
    ∧ get_cohort_users ls registry 5 = Ok g
    ∧ get_cohort_users ls registry 6 = Ok s
    ∧ (∀ u, u ∈ p → u ∈ g)
    ∧ (∀ u, u ∈ g → u ∈ s).
Proof.
  intros Hls Hnow registry.
  set (co4 := system_cohort strftime 4 "Platinum"
    "Top-tier premium customers: high LTV, frequent buyers, and recent purchasers"
    platinum self).
  set (co5 := system_cohort strftime 5 "Gold"
    "Mid-tier premium customers: good spenders and somewhat frequent buyers"
    gold self).
  set (co6 := system_cohort strftime 6 "Silver"
    "Entry premium: some spend and at least one recent purchase"
    silver self).
  assert (get_cohort_users ls registry 4 = execute_cohort ls self co4) as ->.
  { unfold registry. find_cohort. }
  assert (get_cohort_users ls registry 5 = execute_cohort ls self co5) as ->.
  { unfold registry. find_cohort. }
  assert (get_cohort_users ls registry 6 = execute_cohort ls self co6) as ->.
  { unfold registry. find_cohort. }
  destruct (execute_cohort_evaluated ls self co4 (platinum_evaluates self Hnow))
    as [p Hp].
  destruct (tier_included ls self co4 co5 platinum gold Hls eq_refl eq_refl)
    with (r1 := p) as (g & Hg & Hpg);
    [discriminate|discriminate|apply platinum_conjunctive|apply gold_conjunctive
    |by apply gold_evaluates|by apply platinum_gold|exact Hp|].
  destruct (tier_included ls self co5 co6 gold silver Hls eq_refl eq_refl)
    with (r1 := g) as (s & Hs & Hgs);
    [discriminate|discriminate|apply gold_conjunctive|apply silver_conjunctive
    |by apply silver_evaluates|by apply gold_silver|exact Hg|].
  exists p, g, s. done.
Qed.

Lemma premium_tiers_nested_witness :
  let registry := initialize_sample_cohorts fixed_date cart_system in
  ∃ p g s,
    get_cohort_users elements registry 4 = Ok p
    ∧ get_cohort_users elements registry 5 = Ok g
    ∧ get_cohort_users elements registry 6 = Ok s
    ∧ (∀ u, u ∈ p → u ∈ g)
    ∧ (∀ u, u ∈ g → u ∈ s).
Proof.
  apply (premium_tiers_nested fixed_date elements cart_system).
  - intros s. reflexivity.
  - vm_compute. split; discriminate.
Defined.

Lemma sample_registry_evaluates strftime self co :
  now_after 365 self →
  co ∈ cohorts (initialize_sample_cohorts strftime self) →
  Forall (evaluates (initialize_sample_cohorts strftime self))
         (default [] (Cohort.conditions co)).
Proof.
  intros Hnow. unfold initialize_sample_cohorts. cbn [cohorts set_cohorts app].
  set (registry := set_cohorts _ self).
  assert (now_after 365 registry) as Hnow' by exact Hnow.
  intros Hco.
  repeat (apply elem_of_cons in Hco as [->|Hco];
          [cbn [Cohort.conditions system_cohort default];
           first [by apply platinum_evaluates|by apply gold_evaluates
                 |by apply silver_evaluates
                 |repeat (apply Forall_cons; split;
                          [apply sample_condition_evaluates;
                             [done|lia|discriminate]|]);
                  apply Forall_nil_2]|]).
  by apply elem_of_nil in Hco.
Qed.

Lemma reported_by_columns run (cs : list Cohort.t) rows :
  Forall2 (reported_by run) cs rows →
  SummaryRow.cohort_id <$> rows = Cohort.id <$> cs
  ∧ SummaryRow.conditions_count <$> rows
    = (λ co, length (default [] (Cohort.conditions co))) <$> cs.
Proof.
  induction 1 as [|co row cs rows (users & _ & ->) _ [IH1 IH2]]; [done|].
  rewrite !fmap_cons, IH1, IH2. done.
Qed.

(** X20. On every snapshot whose [now] is a [datetime] at least 365
    days after [datetime.min], [analyze_cohorts] on the registry that
    [initialize_sample_cohorts] builds returns, without raising, one row
    for each of the six sample cohorts, in the order of their ids 1 to 6,
    with 2, 2, 2, 4, 4 and 4 conditions. *)
Theorem sample_cohorts_always_evaluate strftime ls self :
  now_after 365 self →
  ∃ rows,
    analyze_cohorts ls (initialize_sample_cohorts strftime self) = Ok rows
    ∧ SummaryRow.cohort_id <$> rows = [1; 2; 3; 4; 5; 6]%Z
    ∧ SummaryRow.conditions_count <$> rows = [2; 2; 2; 4; 4; 4].
Proof.
  intros Hnow. set (registry := initialize_sample_cohorts strftime self).
  assert (is_Ok (analyze_cohorts ls registry)) as Hok.
  { unfold analyze_cohorts. apply analyze_loop_is_Ok, Forall_forall.
    intros co [_ Hco]%list_elem_of_filter.
    destruct (execute_cohort_evaluated ls registry co) as [r ->]; [|done].
    by apply sample_registry_evaluates. }
  destruct (analyze_cohorts ls registry) as [rows|] eqn:Hrows; [|done].
  exists rows. split; [done|].
  unfold analyze_cohorts in Hrows.
  apply analyze_loop_Ok_inv in Hrows as (rows' & -> & Hrows).
  rewrite app_nil_l.
  apply reported_by_columns in Hrows as [-> ->].
  unfold registry, initialize_sample_cohorts. cbn [cohorts set_cohorts app].
  rewrite !filter_cons. cbn [Cohort.active system_cohort default].
  repeat (rewrite decide_True by done). rewrite filter_nil.
  split; reflexivity.
Qed.

Lemma sample_cohorts_always_evaluate_witness :
  ∃ rows,
    analyze_cohorts elements (initialize_sample_cohorts fixed_date cart_system)
    = Ok rows
    ∧ SummaryRow.cohort_id <$> rows = [1; 2; 3; 4; 5; 6]%Z
    ∧ SummaryRow.conditions_count <$> rows = [2; 2; 2; 4; 4; 4].
Proof.
  apply (sample_cohorts_always_evaluate fixed_date elements cart_system).
  vm_compute. split; discriminate.
Defined.

(** ** The user detail of the export *)

Lemma length_remove_dups_le `{EqDecision A} (l : list A) :
  length (remove_dups l) ≤ length l.
Proof.
  induction l as [|x l IH]; [done|]. simpl.
  destruct (decide_rel elem_of x l); simpl; lia.
Qed.


Lemma length_rows_with_event_6 (a1 a2 a3 a4 a5 a6 : string) rows :
  NoDup [a1; a2; a3; a4; a5; a6] →
  length (rows_with_event a1 rows) + length (rows_with_event a2 rows)
  + length (rows_with_event a3 rows) + length (rows_with_event a4 rows)
  + length (rows_with_event a5 rows) + length (rows_with_event a6 rows)
  ≤ length rows.
Proof.
  intros Hnd. unfold rows_with_event.
  repeat match goal with
  | H : NoDup (_ :: _) |- _ => apply NoDup_cons in H as [? H]
  end.
  repeat match goal with
  | H : _ ∉ _ :: _ |- _ => apply not_elem_of_cons in H as [? H]
  end.
  induction rows as [|e rows IH]; [done|].
  rewrite !filter_cons.
  repeat case_decide; simpl; try lia; congruence.
Qed.



(** X21. In the detail row of a user the counts add up: the recent events,
    the distinct categories, brands and products are each at most the
    total number of events of the user, the six per-action counts
    together are at most that total, and the last activity is missing
    exactly when the user has no event. *)
Theorem user_info_counts_bounded self u :
  let i := user_info self u in
  UserInfo.recent_events i ≤ UserInfo.total_events i
  ∧ UserInfo.cart_additions i + UserInfo.purchases i + UserInfo.page_views i
    + UserInfo.checkouts i + UserInfo.logins i + UserInfo.wishlist_additions i
    ≤ UserInfo.total_events i
  ∧ UserInfo.unique_categories_viewed i ≤ UserInfo.total_events i
  ∧ UserInfo.unique_brands_interacted i ≤ UserInfo.total_events i
  ∧ UserInfo.unique_products_viewed i ≤ UserInfo.total_events i
  ∧ (UserInfo.last_activity i = None ↔ UserInfo.total_events i = 0).
Proof.
  simpl. split; [apply length_filter|]. split.
  { apply length_rows_with_event_6. compute_done. }
  unfold nunique_str.
  repeat (split; [etrans; [apply length_remove_dups_le|by rewrite length_fmap]|]).
  destruct (filter _ (user_events self)) as [|e rows]; simpl; [done|].
  split; intros H; discriminate H.
Qed.


